(** * tulip-room: the availability engine of [proxy/app.py]

    A shallow embedding of [merge_meetings], [check_room_status], the body of
    [update_availability] and [get_room], with the properties of the
    interval merge, the free/busy evaluation, the per-room failure capture
    and the lookup.

    Instants are integers (a [datetime] counts microseconds); a polars
    [DataFrame] with the columns [start] and [end] is the list of its rows,
    every cell nullable; a Python exception is a value of [PyException] and
    code that may raise returns a [result]. *)

From Stdlib Require Import ZArith QArith List String Ascii Bool Lia Lqa.
From Stdlib Require Import Sorting.Sorted Sorting.Permutation.
From stdpp Require Import gmap strings list fin_maps.

Open Scope Z_scope.

(** ** Python exceptions *)

(** [TypeError] is what the comparisons of the sweep raise on [None],
    [IndexError] an access out of range, [ValueError] what polars raises
    when a column without any value is compared with a [datetime];
    [Raised] stands for any other subclass of [Exception] (the HTTP and
    parse errors of the calendar fetch).  [str] is [str(e)]. *)
Inductive PyException : Type :=
| TypeError (msg : string)
| IndexError (msg : string)
| ValueError (msg : string)
| Raised (msg : string).

Definition str (e : PyException) : string :=
  match e with
  | TypeError msg | IndexError msg | ValueError msg | Raised msg => msg
  end.

Inductive result (A : Type) : Type :=
| Ok (a : A)
| Raise (e : PyException).
Arguments Ok {A} a.
Arguments Raise {A} e.

#[global] Instance result_ret : MRet result := fun _ a => Ok a.
#[global] Instance result_bind : MBind result := fun _ _ k m =>
  match m with
  | Ok a => k a
  | Raise e => Raise e
  end.

(** A cell of a [datetime] column, as Python sees it: a [datetime] or
    [None]. *)
Definition type_name (v : option Z) : string :=
  match v with
  | Some _ => "datetime.datetime"
  | None => "NoneType"
  end.

Definition unsupported (op : string) (a b : option Z) : PyException :=
  TypeError ("'" +:+ op +:+ "' not supported between instances of '"
             +:+ type_name a +:+ "' and '" +:+ type_name b +:+ "'").

(** [a <= b] *)
Definition py_le (a b : option Z) : result bool :=
  match a, b with
  | Some x, Some y => Ok (x <=? y)
  | _, _ => Raise (unsupported "<=" a b)
  end.

(** [a > b] *)
Definition py_gt (a b : option Z) : result bool :=
  match a, b with
  | Some x, Some y => Ok (y <? x)
  | _, _ => Raise (unsupported ">" a b)
  end.

(** [max(a, b)]: the builtin keeps [a] unless [b > a]. *)
Definition py_max (a b : option Z) : result (option Z) :=
  g ← py_gt b a; Ok (if g : bool then b else a).

(** ** Data frames *)

Record row : Type := Row { start : option Z; end_ : option Z }.

Definition DataFrame : Type := list row.

Definition is_empty (df : DataFrame) : bool :=
  match df with
  | [] => true
  | _ :: _ => false
  end.

(** [df.sort(COL_START)]: ascending, nulls first (polars' defaults).  The
    sort is modelled as a stable insertion sort; polars does not promise
    an order between rows with equal starts, and for valid intervals the
    merge does not depend on it (lemma [merge_meetings_any_order]). *)
Definition key_le (a b : option Z) : bool :=
  match a, b with
  | None, _ => true
  | Some _, None => false
  | Some x, Some y => x <=? y
  end.

Fixpoint insert_row (r : row) (df : DataFrame) : DataFrame :=
  match df with
  | [] => [r]
  | r' :: rest =>
      if key_le (start r) (start r') then r :: df else r' :: insert_row r rest
  end.

Fixpoint sort (df : DataFrame) : DataFrame :=
  match df with
  | [] => []
  | r :: rest => insert_row r (sort rest)
  end.

(** ** [merge_meetings] *)

(** The variables of the sweep: the list [merged] and the accumulator
    [(current_start, current_end)]. *)
Record sweep : Type := Sweep {
  merged : list row;
  current_start : option Z;
  current_end : option Z
}.

Definition flush (st : sweep) : list row :=
  merged st ++ [Row (current_start st) (current_end st)].

(** The body of [for row in df.iter_rows(named=True)]. *)
Definition sweep_row (st : sweep) (r : row) : result sweep :=
  overlapping ← py_le (start r) (current_end st);
  if overlapping : bool then
    new_end ← py_max (current_end st) (end_ r);
    Ok (Sweep (merged st) (current_start st) new_end)
  else
    Ok (Sweep (flush st) (start r) (end_ r)).

Fixpoint iter_rows (rows : list row) (st : sweep) : result sweep :=
  match rows with
  | [] => Ok st
  | r :: rest => st' ← sweep_row st r; iter_rows rest st'
  end.

Definition merge_meetings (df : DataFrame) : result DataFrame :=
  if is_empty df then Ok df
  else
    let df := sort df in
    match df with
    | [] => Raise (IndexError "index 0 is out of bounds")
    | first :: _ =>
        st ← iter_rows df (Sweep [] (start first) (end_ first));
        Ok (flush st)
    end.

(** ** [check_room_status] *)

(** Polars compares a column with a scalar cell by cell, a null cell giving
    null, and refuses a column that has no value at all ([compare_column]
    below); [&] is Kleene's conjunction; [filter] keeps the rows whose mask
    is true; [min] skips nulls and is [None] on a column without values. *)
Definition col_le (c : option Z) (x : Z) : option bool :=
  match c with
  | Some v => Some (v <=? x)
  | None => None
  end.

Definition col_gt (c : option Z) (x : Z) : option bool :=
  match c with
  | Some v => Some (x <? v)
  | None => None
  end.

Definition mask_and (a b : option bool) : option bool :=
  match a, b with
  | Some false, _ | _, Some false => Some false
  | Some true, Some true => Some true
  | _, _ => None
  end.

Definition df_filter (mask : row -> option bool) (df : DataFrame) : DataFrame :=
  List.filter (fun r => match mask r with Some true => true | _ => false end) df.

Fixpoint col_min (cells : list (option Z)) : option Z :=
  match cells with
  | [] => None
  | None :: rest => col_min rest
  | Some v :: rest =>
      match col_min rest with
      | Some m => Some (Z.min v m)
      | None => Some v
      end
  end.

(** A column in which no cell has a value.  The frames of this program
    are built from rows without a declared type, so such a column gets
    the polars dtype [Null]. *)
Definition all_null (cells : list (option Z)) : bool :=
  forallb (fun c => match c with Some _ => false | None => true end) cells.

Definition nl : string := String (ascii_of_nat 10) EmptyString.

Section Engine.

(** The text of the [ValueError] that polars raises when a column of dtype
    [Null] is compared with a [datetime]; it is polars' text, not the
    repository's. *)
Variable null_dtype_message : string.

(** What has to hold of a column for [column <= now] or [column > now]
    to give a mask. *)
Definition compare_column (cells : list (option Z)) : result unit :=
  if all_null cells then Raise (ValueError null_dtype_message) else Ok tt.

(** [strftime_HM t] is what [f"{t:%H:%M}"] prints for the [datetime] [t]:
    the wall clock of the instant in the configured time zone. *)
Variable strftime_HM : Z -> string.

(** [f"{t:%H:%M}"], [t] possibly [None]. *)
Definition format_HM (t : option Z) : result string :=
  match t with
  | Some v => Ok (strftime_HM v)
  | None => Raise (TypeError "unsupported format string passed to NoneType.__format__")
  end.

Definition check_room_status (_df : DataFrame) (_now : Z)
  : result (string * string) :=
  if is_empty _df then Ok ("free", "free for the day")
  else
    _ ← compare_column (map start _df);
    _ ← compare_column (map end_ _df);
    let active_meeting :=
      df_filter (fun r => mask_and (col_le (start r) _now) (col_gt (end_ r) _now)) _df in
    let is_busy := negb (is_empty active_meeting) in
    if is_busy then
      let next_change_time :=
        col_min (map end_ (df_filter (fun r => col_gt (end_ r) _now) _df)) in
      t ← format_HM next_change_time;
      Ok ("busy", "booked until " +:+ t)
    else
      let next_meeting_start :=
        col_min (map start (df_filter (fun r => col_gt (start r) _now) _df)) in
      let next_change_time :=
        match next_meeting_start with
        | Some v => Some v
        | None => None
        end in
      match next_change_time with
      | None => Ok ("free", "free for the day")
      | Some _ =>
          t ← format_HM next_change_time;
          Ok ("free", "free until " +:+ t)
      end.

(** ** [update_availability] *)

Record room : Type := Room { name : string; ical_url : string }.

(** The calendar fetch is the outside world: for a URL it answers with
    the reference instant and the frame of today's events, or raises. *)
Variable get_todays_events : string -> result (Z * DataFrame).

(** The three-line status string of the store. *)
Definition status_string (display state detail : string) : string :=
  display +:+ nl +:+ state +:+ nl +:+ detail +:+ nl.

(** The [try] suite of the loop body, up to the string it stores. *)
Definition try_room (r : room) : result string :=
  '(now, ical_df) ← get_todays_events (ical_url r);
  merged_ical_df ← merge_meetings ical_df;
  '(free_busy, message) ← check_room_status merged_ical_df now;
  Ok (status_string (name r) free_busy message).

(** One iteration of [for mac_address, room in rooms.items()]: the [try]
    suite and its [except Exception as e] handler. *)
Definition update_room (availability : gmap string string)
    (mac_address : string) (r : room) : gmap string string :=
  match try_room r with
  | Ok s => <[mac_address := s]> availability
  | Raise e =>
      <[mac_address := status_string (name r) "error" (substring 0 30 (str e))]>
        availability
  end.


(** One pass of the [while True] loop over [rooms.items()]. *)
Definition update_cycle (rooms : list (string * room))
    (availability : gmap string string) : gmap string string :=
  fold_left (fun av '(mac_address, r) => update_room av mac_address r)
    rooms availability.

End Engine.

(** ** [get_room] *)

(** [str.upper] on the ASCII identifiers of the rooms (MAC addresses):
    the letters [a]..[z] move to [A]..[Z], every other character stays. *)
Definition upper_char (c : ascii) : ascii :=
  let n := nat_of_ascii c in
  if ((97 <=? n) && (n <=? 122))%nat then ascii_of_nat (n - 32) else c.

Fixpoint upper (s : string) : string :=
  match s with
  | EmptyString => EmptyString
  | String c rest => String (upper_char c) (upper rest)
  end.

Definition unknown_room : string :=
  "Unknown Room" +:+ nl +:+ "free" +:+ nl +:+ "No data available" +:+ nl.

Definition get_room (availability : gmap string string) (mac_address : string)
  : string :=
  default unknown_room (availability !! upper mac_address).

(** A clock for instants counted in seconds of local civil time, the
    formatter of the worked examples. *)
Definition two_digits (n : Z) : string :=
  String (ascii_of_nat (48 + Z.to_nat (n / 10)))
    (String (ascii_of_nat (48 + Z.to_nat (n mod 10))) EmptyString).

Definition clock_HM (t : Z) : string :=
  two_digits ((t / 3600) mod 24) +:+ ":" +:+ two_digits ((t / 60) mod 60).

Definition hm (h m : Z) : Z := h * 3600 + m * 60.

(** A text for the message of polars, for the worked examples; none of
    them depends on it. *)
Definition sample_message : string := "cannot compare a column of dtype Null".

(** ** Complete intervals

    A [TimeInterval] of the specification has both instants; the frame of
    a list of intervals has no null cell. *)

Definition TimeInterval : Type := (Z * Z)%type.

Definition row_of (iv : TimeInterval) : row := Row (Some (fst iv)) (Some (snd iv)).

Definition frame_of (ivs : list TimeInterval) : DataFrame := map row_of ivs.

Definition valid (iv : TimeInterval) : Prop := fst iv <= snd iv.

(** The instants an interval covers: [start <= t <= end] when [closed],
    [start <= t < end] otherwise.  The instant [t] is a rational, so that
    an instant of any resolution between two ticks of the clock counts. *)
Definition inside (closed : bool) (iv : TimeInterval) (t : Q) : Prop :=
  (inject_Z (fst iv) <= t)%Q /\
  (if closed then (t <= inject_Z (snd iv))%Q else (t < inject_Z (snd iv))%Q).

Definition covered (closed : bool) (ivs : list TimeInterval) (t : Q) : Prop :=
  exists iv, In iv ivs /\ inside closed iv t.

Definition gap (a b : TimeInterval) : Prop := snd a < fst b.

Definition by_start (a b : TimeInterval) : Prop := fst a <= fst b.


(** The sweep on complete intervals, where no comparison raises: the sort
    by [start], the loop from the accumulator [(cs, ce)], and the merge. *)
Fixpoint insert_iv (x : TimeInterval) (l : list TimeInterval) : list TimeInterval :=
  match l with
  | [] => [x]
  | y :: rest => if fst x <=? fst y then x :: l else y :: insert_iv x rest
  end.

Fixpoint sort_iv (l : list TimeInterval) : list TimeInterval :=
  match l with
  | [] => []
  | x :: rest => insert_iv x (sort_iv rest)
  end.

Fixpoint fuse (rows : list TimeInterval) (cs ce : Z) : list TimeInterval :=
  match rows with
  | [] => [(cs, ce)]
  | r :: rest =>
      if fst r <=? ce then fuse rest cs (Z.max ce (snd r))
      else (cs, ce) :: fuse rest (fst r) (snd r)
  end.

Definition sweep_iv (sorted : list TimeInterval) : list TimeInterval :=
  match sorted with
  | [] => []
  | first :: _ => fuse sorted (fst first) (snd first)
  end.

Definition merge_iv (ivs : list TimeInterval) : list TimeInterval :=
  sweep_iv (sort_iv ivs).

(** ** Schedules

    The invariant of a merged schedule: every interval has
    [start <= end], the starts ascend, and consecutive intervals are apart. *)
Definition MergedSchedule (sched : list TimeInterval) : Prop :=
  Forall valid sched /\ Sorted by_start sched /\ Sorted gap sched.

(** A frame that [check_room_status] can compare with [now]: it is empty,
    or each of its two columns has a value. *)
Definition has_values (df : DataFrame) : Prop :=
  (exists r s, In r df /\ start r = Some s) /\
  (exists r e, In r df /\ end_ r = Some e).

Definition comparable (df : DataFrame) : Prop := df = [] \/ has_values df.

(** A row is active at [now] when [start <= now < end]. *)
Definition active (now : Z) (r : row) : Prop :=
  exists s e, start r = Some s /\ end_ r = Some e /\ s <= now < e.

(** [m] is the least of the ends (of the starts) of the frame that
    exceed [now]. *)
Definition least_end_after (now : Z) (df : DataFrame) (m : Z) : Prop :=
  (exists r, In r df /\ end_ r = Some m /\ now < m) /\
  (forall r e, In r df -> end_ r = Some e -> now < e -> m <= e).

Definition least_start_after (now : Z) (df : DataFrame) (m : Z) : Prop :=
  (exists r, In r df /\ start r = Some m /\ now < m) /\
  (forall r s, In r df -> start r = Some s -> now < s -> m <= s).

(** The earliest interval of a schedule that satisfies [p]: the first one
    in the order of the schedule, which ascends by start. *)
Definition earliest (p : TimeInterval -> bool) (sched : list TimeInterval)
  : option TimeInterval :=
  List.find p sched.

(** Some interval of the schedule contains [now], end excluded. *)
Definition busy_at (now : Z) (sched : list TimeInterval) : Prop :=
  exists iv, In iv sched /\ fst iv <= now < snd iv.

(** [m] is the largest end among the rows active at [now]. *)
Definition largest_active_end (now : Z) (df : DataFrame) (m : Z) : Prop :=
  (exists r, In r df /\ active now r /\ end_ r = Some m) /\
  (forall r e, In r df -> active now r -> end_ r = Some e -> e <= m).

(** The order of the sort on rows, and the rows whose interval, when they
    have both cells, has [start <= end]. *)
Definition row_le (a b : row) : Prop := key_le (start a) (start b) = true.

Definition row_valid (r : row) : Prop :=
  match start r, end_ r with
  | Some s, Some e => s <= e
  | _, _ => True
  end.

(** A row without end read as the point at its start. *)
Definition as_point (r : row) : row :=
  Row (start r) (match end_ r with Some e => Some e | None => start r end).

(** ** The rooms and a pass over them *)

(** The loop of the main block over [config['rooms']]:
    [rooms.update({room['mac_address'].upper(): room})].  An entry of the
    configuration is the pair of its [mac_address] and the room. *)
Definition load_rooms (config : list (string * room)) : gmap string room :=
  fold_left (fun rooms '(mac_address, r) => <[upper mac_address := r]> rooms)
    config ∅.

Section Pass.

Variable null_dtype_message : string.
Variable strftime_HM : Z -> string.
Variable get_todays_events : string -> result (Z * DataFrame).

(** The merge followed by the evaluation, as the [try] suite chains them. *)
Definition room_status (ical_df : DataFrame) (now : Z) : result (string * string) :=
  merged_ical_df ← merge_meetings ical_df;
  check_room_status null_dtype_message strftime_HM merged_ical_df now.

(** The string that an iteration of the loop stores for a room: the one
    of the [try] suite, or the one of the handler. *)
Definition room_record (r : room) : string :=
  match try_room null_dtype_message strftime_HM get_todays_events r with
  | Ok s => s
  | Raise e => status_string (name r) "error" (substring 0 30 (str e))
  end.

(** [for mac_address, room in rooms.items()] over the dictionary of the
    rooms. *)
Definition update_rooms (rooms : gmap string room)
    (availability : gmap string string) : gmap string string :=
  update_cycle null_dtype_message strftime_HM get_todays_events (map_to_list rooms) availability.

End Pass.

(** * Properties *)

(** ** The sweep on a frame without nulls *)

Lemma insert_row_of (x : TimeInterval) (l : list TimeInterval) :
  insert_row (row_of x) (frame_of l) = frame_of (insert_iv x l).
Proof.
  induction l as [|y l IH]; simpl; [reflexivity|].
  destruct (fst x <=? fst y); simpl; [reflexivity|].
  now rewrite IH.
Qed.

Lemma sort_frame_of (l : list TimeInterval) :
  sort (frame_of l) = frame_of (sort_iv l).
Proof.
  induction l as [|x l IH]; simpl; [reflexivity|].
  rewrite IH. apply insert_row_of.
Qed.

Lemma py_max_complete (a b : Z) : py_max (Some a) (Some b) = Ok (Some (Z.max a b)).
Proof.
  unfold py_max; simpl. unfold mbind, result_bind.
  destruct (a <? b) eqn:E; do 2 f_equal; lia.
Qed.

Lemma iter_rows_frame_of (rows : list TimeInterval) :
  forall (m : list row) (cs ce : Z),
    (st ← iter_rows (frame_of rows) (Sweep m (Some cs) (Some ce)); Ok (flush st))
    = Ok (m ++ frame_of (fuse rows cs ce)).
Proof.
  induction rows as [|r rows IH]; intros m cs ce; simpl; [reflexivity|].
  unfold sweep_row; simpl.
  destruct (fst r <=? ce) eqn:E; simpl.
  - replace (if ce <? snd r then Some (snd r) else Some ce)
      with (Some (Z.max ce (snd r)))
      by (destruct (ce <? snd r) eqn:?; f_equal; lia).
    apply IH.
  - rewrite IH. unfold flush; simpl.
    now rewrite <- app_assoc.
Qed.

Lemma insert_iv_cons (x : TimeInterval) (l : list TimeInterval) :
  exists y rest, insert_iv x l = y :: rest.
Proof. destruct l as [|y l]; simpl; [|destruct (fst x <=? fst y)]; eauto. Qed.

Lemma merge_meetings_frame_of (ivs : list TimeInterval) :
  merge_meetings (frame_of ivs) = Ok (frame_of (merge_iv ivs)).
Proof.
  destruct ivs as [|x l]; [reflexivity|].
  unfold merge_meetings, merge_iv, sweep_iv.
  change (is_empty (frame_of (x :: l))) with false. cbv iota zeta.
  rewrite sort_frame_of. simpl sort_iv.
  destruct (insert_iv_cons x (sort_iv l)) as (y & rest & ->).
  pose proof (iter_rows_frame_of (y :: rest) [] (fst y) (snd y)) as H.
  cbn [frame_of map] in H |- *. cbn [row_of start end_].
  cbn [row_of start end_] in H. rewrite H.
  reflexivity.
Qed.

(** ** The sort by start *)

Lemma insert_iv_perm (x : TimeInterval) (l : list TimeInterval) :
  Permutation (insert_iv x l) (x :: l).
Proof.
  induction l as [|y l IH]; simpl; [reflexivity|].
  destruct (fst x <=? fst y); [reflexivity|].
  rewrite IH. apply perm_swap.
Qed.

Lemma sort_iv_perm (l : list TimeInterval) : Permutation (sort_iv l) l.
Proof.
  induction l as [|x l IH]; simpl; [reflexivity|].
  rewrite insert_iv_perm. now constructor.
Qed.

Lemma insert_iv_sorted (x : TimeInterval) (l : list TimeInterval) :
  Sorted by_start l -> Sorted by_start (insert_iv x l).
Proof.
  induction l as [|y l IH]; simpl; intros Hs.
  - repeat constructor.
  - destruct (fst x <=? fst y) eqn:E.
    + constructor; [assumption|]. constructor. unfold by_start. lia.
    + inversion Hs as [|? ? Hl Hhd]; subst.
      constructor; [auto|].
      destruct l as [|z l]; simpl.
      * constructor. unfold by_start. lia.
      * destruct (fst x <=? fst z); constructor.
        -- unfold by_start. lia.
        -- now inversion Hhd.
Qed.

Lemma sort_iv_sorted (l : list TimeInterval) : Sorted by_start (sort_iv l).
Proof.
  induction l as [|x l IH]; simpl; [constructor|].
  now apply insert_iv_sorted.
Qed.

Lemma sort_iv_fixed (l : list TimeInterval) : Sorted by_start l -> sort_iv l = l.
Proof.
  induction l as [|x l IH]; intros Hs; [reflexivity|].
  inversion Hs as [|? ? Hl Hhd]; subst. simpl. rewrite (IH Hl).
  destruct Hhd as [|y l Hxy]; simpl; [reflexivity|].
  unfold by_start in Hxy.
  destruct (fst x <=? fst y) eqn:E; [reflexivity|lia].
Qed.

Lemma by_start_transitive : Transitive by_start.
Proof. unfold by_start. intros a b c. lia. Qed.

Lemma sort_iv_lower_bound (first : TimeInterval) (rest : list TimeInterval) :
  StronglySorted by_start (first :: rest) ->
  Forall (fun r => fst first <= fst r) (first :: rest).
Proof.
  intros Hs. inversion Hs; subst. constructor; [lia|assumption].
Qed.

(** ** The loop *)

Lemma fuse_head (rows : list TimeInterval) :
  forall cs ce, exists ce' tl, fuse rows cs ce = (cs, ce') :: tl.
Proof.
  induction rows as [|r rows IH]; intros cs ce; simpl; [eauto|].
  destruct (fst r <=? ce); eauto.
Qed.

Lemma fuse_valid (rows : list TimeInterval) :
  forall cs ce, cs <= ce -> Forall valid rows -> Forall valid (fuse rows cs ce).
Proof.
  induction rows as [|r rows IH]; intros cs ce Hc Hv; simpl.
  - repeat constructor. exact Hc.
  - inversion Hv as [|? ? Hr Hrest]; subst.
    destruct (fst r <=? ce).
    + apply IH; [lia|assumption].
    + constructor; [exact Hc|]. now apply IH.
Qed.

Lemma fuse_gap (rows : list TimeInterval) :
  forall cs ce, Sorted gap (fuse rows cs ce).
Proof.
  induction rows as [|r rows IH]; intros cs ce; simpl.
  - repeat constructor.
  - destruct (fst r <=? ce) eqn:E; [apply IH|].
    constructor; [apply IH|].
    destruct (fuse_head rows (fst r) (snd r)) as (ce' & tl & ->).
    constructor. unfold gap; simpl. lia.
Qed.

Lemma fuse_fixed (tl : list TimeInterval) :
  forall cs ce, Sorted gap ((cs, ce) :: tl) -> fuse tl cs ce = (cs, ce) :: tl.
Proof.
  induction tl as [|[s e] tl IH]; intros cs ce Hs; simpl; [reflexivity|].
  inversion Hs as [|? ? Hl Hhd]; subst.
  inversion Hhd as [|? ? Hg]; subst. unfold gap in Hg; simpl in Hg.
  destruct (s <=? ce) eqn:E; [lia|].
  now rewrite (IH s e Hl).
Qed.

Lemma covered_cons (closed : bool) (r : TimeInterval) (rows : list TimeInterval) (t : Q) :
  covered closed (r :: rows) t <-> inside closed r t \/ covered closed rows t.
Proof.
  unfold covered; simpl. split.
  - intros (iv & [<-|Hin] & Hi); eauto.
  - intros [Hi|(iv & Hin & Hi)]; eauto.
Qed.

Lemma covered_perm (closed : bool) (l l' : list TimeInterval) (t : Q) :
  Permutation l l' -> covered closed l t <-> covered closed l' t.
Proof.
  intros Hp. unfold covered.
  split; intros (iv & Hin & Hi); exists iv; split; trivial.
  - now apply (Permutation_in _ Hp).
  - now apply (Permutation_in _ (Permutation_sym Hp)).
Qed.

Lemma fuse_covered (closed : bool) (rows : list TimeInterval) :
  forall cs ce,
    Forall (fun r => cs <= fst r) rows ->
    StronglySorted by_start rows ->
    forall t, covered closed (fuse rows cs ce) t
              <-> inside closed (cs, ce) t \/ covered closed rows t.
Proof.
  induction rows as [|r rows IH]; intros cs ce Hlo Hs t; simpl.
  - rewrite covered_cons. unfold covered; simpl. firstorder.
  - inversion Hlo as [|? ? Hr Hlo']; subst.
    inversion Hs as [|? ? Hs' Hall]; subst.
    rewrite covered_cons.
    destruct (fst r <=? ce) eqn:E.
    + rewrite (IH cs (Z.max ce (snd r)) Hlo' Hs').
      apply Z.leb_le in E. rewrite Zle_Qle in E, Hr.
      unfold inside; simpl.
      destruct (Z.max_spec ce (snd r)) as [[Hm ->]|[Hm ->]];
        [rewrite Zlt_Qlt in Hm|rewrite Zle_Qle in Hm];
        destruct closed; intuition lra.
    + rewrite covered_cons. rewrite (IH (fst r) (snd r) Hall Hs').
      unfold inside; simpl. tauto.
Qed.

(** ** The merge of complete intervals *)

Lemma sweep_iv_covered (closed : bool) (sorted : list TimeInterval) (t : Q) :
  Sorted by_start sorted ->
  covered closed (sweep_iv sorted) t <-> covered closed sorted t.
Proof.
  intros Hsorted.
  pose proof (Sorted_StronglySorted by_start_transitive Hsorted) as Hs.
  destruct sorted as [|first rest]; [reflexivity|]. unfold sweep_iv.
  rewrite (fuse_covered closed (first :: rest) (fst first) (snd first)
             (sort_iv_lower_bound first rest Hs) Hs t).
  rewrite covered_cons. destruct first as [s e]. simpl. tauto.
Qed.

Lemma sweep_iv_gap (sorted : list TimeInterval) : Sorted gap (sweep_iv sorted).
Proof. destruct sorted; [constructor|apply fuse_gap]. Qed.

Lemma sweep_iv_valid (sorted : list TimeInterval) :
  Forall valid sorted -> Forall valid (sweep_iv sorted).
Proof.
  intros Hv. destruct sorted as [|first rest]; [constructor|].
  apply fuse_valid; [|assumption].
  inversion Hv; subst. assumption.
Qed.

Lemma merge_iv_covered (closed : bool) (ivs : list TimeInterval) (t : Q) :
  covered closed (merge_iv ivs) t <-> covered closed ivs t.
Proof.
  unfold merge_iv. rewrite (sweep_iv_covered closed _ t (sort_iv_sorted ivs)).
  apply covered_perm, sort_iv_perm.
Qed.

Lemma merge_iv_gap (ivs : list TimeInterval) : Sorted gap (merge_iv ivs).
Proof. apply sweep_iv_gap. Qed.

Lemma merge_iv_valid (ivs : list TimeInterval) :
  Forall valid ivs -> Forall valid (merge_iv ivs).
Proof.
  intros Hv. apply sweep_iv_valid.
  exact (Permutation_Forall (Permutation_sym (sort_iv_perm ivs)) Hv).
Qed.

Lemma gap_valid_by_start (l : list TimeInterval) :
  Sorted gap l -> Forall valid l -> Sorted by_start l.
Proof.
  induction 1 as [|a l Hl IH Hhd]; intros Hv; [constructor|].
  inversion Hv as [|? ? Ha Hv']; subst.
  constructor; [auto|].
  destruct Hhd as [|b l Hab]; constructor.
  unfold gap in Hab. unfold by_start. unfold valid in Ha. lia.
Qed.

Lemma merge_iv_fixed (l : list TimeInterval) :
  Sorted gap l -> Forall valid l -> merge_iv l = l.
Proof.
  intros Hg Hv. unfold merge_iv, sweep_iv.
  rewrite (sort_iv_fixed l (gap_valid_by_start l Hg Hv)).
  destruct l as [|[s e] rest]; [reflexivity|].
  inversion Hv as [|? ? Hse _]; subst. unfold valid in Hse; simpl in Hse.
  simpl. destruct (s <=? e) eqn:E; [|lia].
  rewrite Z.max_id. now apply fuse_fixed.
Qed.

Lemma gap_valid_strongly (l : list TimeInterval) :
  Sorted gap l -> Forall valid l -> StronglySorted gap l.
Proof.
  induction 1 as [|a l Hl IH Hhd]; intros Hv; [constructor|].
  inversion Hv as [|? ? Ha Hv']; subst.
  specialize (IH Hv'). constructor; [assumption|].
  destruct Hhd as [|b l Hab]; [constructor|].
  inversion IH as [|? ? _ Hall]; subst. inversion Hv' as [|? ? Hb _]; subst.
  constructor; [assumption|].
  rewrite Forall_forall in *. intros c Hc. specialize (Hall c Hc).
  unfold gap, valid in *. lia.
Qed.

(** ** The merged schedule is unique

    Two schedules of valid intervals with gaps between consecutive
    intervals that cover the same instants are the same list. *)

Lemma covered_tail_after (a : TimeInterval) (l : list TimeInterval) (t : Q) :
  StronglySorted gap (a :: l) -> covered true l t ->
  (inject_Z (snd a) + 1 <= t)%Q.
Proof.
  intros Hs (iv & Hin & Hlo & _). inversion Hs as [|? ? _ Hall]; subst.
  rewrite List.Forall_forall in Hall. pose proof (Hall iv Hin) as Hg.
  unfold gap in Hg.
  assert (H : (snd a + 1 <= fst iv)%Z) by lia.
  rewrite Zle_Qle, inject_Z_plus in H. change (inject_Z 1) with 1%Q in H. lra.
Qed.

Lemma covered_head_low (a : TimeInterval) (l : list TimeInterval) (t : Q) :
  StronglySorted gap (a :: l) -> valid a -> covered true (a :: l) t ->
  (inject_Z (fst a) <= t)%Q.
Proof.
  intros Hs Ha Hc. apply covered_cons in Hc. destruct Hc as [[Hlo _]|Hc]; trivial.
  pose proof (covered_tail_after a l t Hs Hc) as Ht.
  unfold valid in Ha. rewrite Zle_Qle in Ha. lra.
Qed.

Lemma covered_head_start (a : TimeInterval) (l : list TimeInterval) :
  valid a -> covered true (a :: l) (inject_Z (fst a)).
Proof.
  intros Ha. exists a. split; [now left|]. unfold inside, valid in *.
  rewrite Zle_Qle in Ha. split; lra.
Qed.

Lemma schedule_unique (l1 : list TimeInterval) :
  forall l2 : list TimeInterval,
    Forall valid l1 -> StronglySorted gap l1 ->
    Forall valid l2 -> StronglySorted gap l2 ->
    (forall t : Q, covered true l1 t <-> covered true l2 t) ->
    l1 = l2.
Proof.
  induction l1 as [|[s1 e1] t1 IH]; intros [|[s2 e2] t2] Hv1 Hs1 Hv2 Hs2 Hcov.
  - reflexivity.
  - inversion Hv2 as [|? ? Ha _]; subst.
    destruct (proj2 (Hcov _) (covered_head_start _ t2 Ha)) as (iv & [] & _).
  - inversion Hv1 as [|? ? Ha _]; subst.
    destruct (proj1 (Hcov _) (covered_head_start _ t1 Ha)) as (iv & [] & _).
  - inversion Hv1 as [|? ? Ha1 Hv1']; subst.
    inversion Hv2 as [|? ? Ha2 Hv2']; subst.
    pose proof Ha1 as Hq1. pose proof Ha2 as Hq2.
    unfold valid in Hq1, Hq2. simpl in Hq1, Hq2. rewrite Zle_Qle in Hq1, Hq2.
    assert (Hstart : s1 = s2).
    { pose proof (covered_head_low _ _ _ Hs2 Ha2
                    (proj1 (Hcov _) (covered_head_start _ t1 Ha1))) as H12.
      pose proof (covered_head_low _ _ _ Hs1 Ha1
                    (proj2 (Hcov _) (covered_head_start _ t2 Ha2))) as H21.
      simpl in H12, H21. rewrite <- Zle_Qle in H12, H21. lia. }
    subst s2.
    assert (Hend : e1 = e2).
    { destruct (Z.lt_trichotomy e1 e2) as [Hlt|[Heq|Hlt]]; [|exact Heq|];
        exfalso.
      - assert (Hle : (e1 + 1 <= e2)%Z) by lia.
        rewrite Zle_Qle, inject_Z_plus in Hle. change (inject_Z 1) with 1%Q in Hle.
        assert (Hc : covered true ((s1, e2) :: t2) (inject_Z e1 + (1 # 2))).
        { exists (s1, e2). split; [now left|]. unfold inside; simpl. split; lra. }
        apply Hcov, covered_cons in Hc. destruct Hc as [[_ Hhi]|Hc].
        + simpl in Hhi. lra.
        + pose proof (covered_tail_after _ _ _ Hs1 Hc) as Ht. simpl in Ht. lra.
      - assert (Hle : (e2 + 1 <= e1)%Z) by lia.
        rewrite Zle_Qle, inject_Z_plus in Hle. change (inject_Z 1) with 1%Q in Hle.
        assert (Hc : covered true ((s1, e1) :: t1) (inject_Z e2 + (1 # 2))).
        { exists (s1, e1). split; [now left|]. unfold inside; simpl. split; lra. }
        apply Hcov, covered_cons in Hc. destruct Hc as [[_ Hhi]|Hc].
        + simpl in Hhi. lra.
        + pose proof (covered_tail_after _ _ _ Hs2 Hc) as Ht. simpl in Ht. lra. }
    subst e2. f_equal.
    inversion Hs1 as [|? ? Hs1' _]; subst. inversion Hs2 as [|? ? Hs2' _]; subst.
    apply IH; trivial. intros t. split; intros Hc.
    + pose proof (covered_tail_after _ _ _ Hs1 Hc) as Ht. simpl in Ht.
      assert (Hc' : covered true ((s1, e1) :: t1) t) by (apply covered_cons; auto).
      apply Hcov, covered_cons in Hc'. destruct Hc' as [[_ Hhi]|Hc']; trivial.
      simpl in Hhi. lra.
    + pose proof (covered_tail_after _ _ _ Hs2 Hc) as Ht. simpl in Ht.
      assert (Hc' : covered true ((s1, e1) :: t2) t) by (apply covered_cons; auto).
      apply Hcov, covered_cons in Hc'. destruct Hc' as [[_ Hhi]|Hc']; trivial.
      simpl in Hhi. lra.
Qed.

(** The sweep gives the same schedule whatever order the sort leaves
    between meetings that start together. *)
Lemma sweep_iv_any_order (ivs sorted : list TimeInterval) :
  Forall valid ivs -> Permutation sorted ivs -> Sorted by_start sorted ->
  sweep_iv sorted = merge_iv ivs.
Proof.
  intros Hv Hp Hs.
  assert (Hv' : Forall valid sorted)
    by exact (Permutation_Forall (Permutation_sym Hp) Hv).
  apply schedule_unique.
  - now apply sweep_iv_valid.
  - apply gap_valid_strongly; [apply sweep_iv_gap|now apply sweep_iv_valid].
  - now apply merge_iv_valid.
  - apply gap_valid_strongly; [apply merge_iv_gap|now apply merge_iv_valid].
  - intros t. rewrite (sweep_iv_covered true sorted t Hs), merge_iv_covered.
    now apply covered_perm.
Qed.

Lemma sorted_lookup_next {A : Type} (R : A -> A -> Prop) (l : list A) :
  Sorted R l ->
  forall (i : nat) (a b : A), l !! i = Some a -> l !! S i = Some b -> R a b.
Proof.
  induction 1 as [|x l Hl IH Hhd]; intros i a b Ha Hb; [discriminate|].
  destruct i as [|i]; simpl in *.
  - injection Ha as <-. destruct Hhd as [|y l Hxy]; [discriminate|].
    simpl in Hb. now injection Hb as <-.
  - eauto.
Qed.

Lemma strongly_sorted_lookup {A : Type} (R : A -> A -> Prop) (l : list A) :
  StronglySorted R l ->
  forall (i j : nat) (a b : A),
    (i < j)%nat -> l !! i = Some a -> l !! j = Some b -> R a b.
Proof.
  induction 1 as [|x l Hl IH Hall]; intros i j a b Hij Ha Hb; [discriminate|].
  destruct j as [|j]; [lia|]. simpl in Hb.
  destruct i as [|i]; simpl in Ha.
  - injection Ha as <-. rewrite Forall_forall in Hall. apply Hall.
    eapply list_elem_of_lookup_2; eauto.
  - apply (IH i j); trivial. lia.
Qed.

Lemma merge_meetings_any_order (ivs sorted : list TimeInterval) :
  Forall valid ivs -> Permutation sorted ivs -> Sorted by_start sorted ->
  merge_meetings (frame_of ivs) = Ok (frame_of (sweep_iv sorted)).
Proof.
  intros Hv Hp Hs. rewrite merge_meetings_frame_of.
  now rewrite (sweep_iv_any_order ivs sorted Hv Hp Hs).
Qed.

(** ** [merge_meetings] on valid intervals *)

Ltac all_valid :=
  repeat first [apply List.Forall_nil
               | apply List.Forall_cons; [unfold valid; simpl; lia|]].

Example merge_three :
  merge_meetings (frame_of [(5, 7); (1, 3); (3, 4); (6, 9)])
  = Ok (frame_of [(1, 4); (5, 9)]).
Proof. reflexivity. Qed.

(** C1 (merge coverage).  For every input sequence of complete intervals,
    in any order, overlapping or duplicated, [merge_meetings] returns a
    schedule, and an instant lies in some returned interval exactly when
    it lies in some input interval, whether the intervals are read as
    closed [start <= t <= end] or as half-open [start <= t < end], and
    for instants of any resolution (rationals); the empty input gives the
    empty schedule.  (The condition [start <= end] of the inputs is not
    needed for this property.) *)
Theorem merge_meetings_coverage (ivs : list TimeInterval) :
  merge_meetings [] = Ok [] /\
  exists out : list TimeInterval,
    merge_meetings (frame_of ivs) = Ok (frame_of out) /\
    forall (closed : bool) (t : Q), covered closed out t <-> covered closed ivs t.
Proof.
  split; [reflexivity|].
  exists (merge_iv ivs). split; [apply merge_meetings_frame_of|].
  intros closed t. apply merge_iv_covered.
Qed.

(** C2 (merge disjointness).  For every input sequence of intervals with
    [start <= end], the schedule returned by [merge_meetings] is sorted
    ascending by start, and any two consecutive intervals [a], [b] of it
    satisfy [a.end < b.start]. *)
Theorem merge_meetings_sorted_disjoint (ivs : list TimeInterval) :
  Forall valid ivs ->
  exists out : list TimeInterval,
    merge_meetings (frame_of ivs) = Ok (frame_of out) /\
    (forall (i j : nat) (a b : TimeInterval),
        (i < j)%nat -> out !! i = Some a -> out !! j = Some b -> fst a <= fst b) /\
    (forall (i : nat) (a b : TimeInterval),
        out !! i = Some a -> out !! S i = Some b -> snd a < fst b).
Proof.
  intros Hv. exists (merge_iv ivs).
  split; [apply merge_meetings_frame_of|].
  pose proof (merge_iv_gap ivs) as Hg.
  pose proof (merge_iv_valid ivs Hv) as Hv'.
  split.
  - apply (strongly_sorted_lookup by_start).
    apply (Sorted_StronglySorted by_start_transitive).
    now apply gap_valid_by_start.
  - exact (sorted_lookup_next gap _ Hg).
Qed.

Lemma merge_meetings_sorted_disjoint_witness :
  Forall valid [(5, 7); (1, 3); (3, 4); (6, 9)] /\
  exists out : list TimeInterval,
    merge_meetings (frame_of [(5, 7); (1, 3); (3, 4); (6, 9)]) = Ok (frame_of out) /\
    (forall (i j : nat) (a b : TimeInterval),
        (i < j)%nat -> out !! i = Some a -> out !! j = Some b -> fst a <= fst b) /\
    (forall (i : nat) (a b : TimeInterval),
        out !! i = Some a -> out !! S i = Some b -> snd a < fst b).
Proof.
  split; [all_valid|].
  apply (merge_meetings_sorted_disjoint [(5, 7); (1, 3); (3, 4); (6, 9)]).
  all_valid.
Defined.

(** C4 (merge idempotence).  For every input sequence of intervals with
    [start <= end], [merge_meetings] returns a schedule, and merging that
    schedule again returns it unchanged. *)
Theorem merge_meetings_idempotent (ivs : list TimeInterval) :
  Forall valid ivs ->
  exists out : DataFrame,
    merge_meetings (frame_of ivs) = Ok out /\ merge_meetings out = Ok out.
Proof.
  intros Hv. exists (frame_of (merge_iv ivs)).
  split; [apply merge_meetings_frame_of|].
  rewrite merge_meetings_frame_of.
  rewrite (merge_iv_fixed _ (merge_iv_gap ivs) (merge_iv_valid ivs Hv)).
  reflexivity.
Qed.

Lemma merge_meetings_idempotent_witness :
  Forall valid [(9, 9); (2, 6); (4, 5); (6, 8); (2, 3)] /\
  exists out : DataFrame,
    merge_meetings (frame_of [(9, 9); (2, 6); (4, 5); (6, 8); (2, 3)]) = Ok out /\
    merge_meetings out = Ok out.
Proof.
  split; [all_valid|].
  apply (merge_meetings_idempotent [(9, 9); (2, 6); (4, 5); (6, 8); (2, 3)]).
  all_valid.
Defined.

(** C10 (validity is preserved).  For every input sequence of intervals
    with [start <= end], every interval of the schedule returned by
    [merge_meetings] has [start <= end]. *)
Theorem merge_meetings_valid (ivs : list TimeInterval) :
  Forall valid ivs ->
  exists out : list TimeInterval,
    merge_meetings (frame_of ivs) = Ok (frame_of out) /\ Forall valid out.
Proof.
  intros Hv. exists (merge_iv ivs).
  split; [apply merge_meetings_frame_of|now apply merge_iv_valid].
Qed.

Lemma merge_meetings_valid_witness :
  Forall valid [(7, 7); (1, 4); (0, 2)] /\
  exists out : list TimeInterval,
    merge_meetings (frame_of [(7, 7); (1, 4); (0, 2)]) = Ok (frame_of out) /\
    Forall valid out.
Proof.
  split; [all_valid|].
  apply (merge_meetings_valid [(7, 7); (1, 4); (0, 2)]).
  all_valid.
Defined.

Lemma merge_iv_schedule (ivs : list TimeInterval) :
  Forall valid ivs -> MergedSchedule (merge_iv ivs).
Proof.
  intros Hv.
  pose proof (merge_iv_gap ivs) as Hg.
  pose proof (merge_iv_valid ivs Hv) as Hv'.
  repeat split; trivial. now apply gap_valid_by_start.
Qed.

(** ** Columns and masks *)

Lemma is_empty_false (df : DataFrame) :
  is_empty df = false <-> exists r, In r df.
Proof.
  destruct df as [|r df]; simpl; split.
  - discriminate.
  - intros (r & []).
  - eauto.
  - reflexivity.
Qed.

Lemma df_filter_In (mask : row -> option bool) (df : DataFrame) (r : row) :
  In r (df_filter mask df) <-> In r df /\ mask r = Some true.
Proof.
  unfold df_filter. rewrite List.filter_In.
  destruct (mask r) as [[|]|]; intuition congruence.
Qed.

Lemma mask_active (now : Z) (r : row) :
  mask_and (col_le (start r) now) (col_gt (end_ r) now) = Some true
  <-> active now r.
Proof.
  unfold active. destruct r as [[s|] [e|]]; simpl.
  - destruct (s <=? now) eqn:E1, (now <? e) eqn:E2; simpl; split; intros H;
      try discriminate; try reflexivity;
      try (exists s, e; repeat split; lia);
      destruct H as (s' & e' & [= <-] & [= <-] & H); lia.
  - destruct (s <=? now); split; try discriminate;
      intros (s' & e' & _ & [=] & _).
  - split; try discriminate.
    + destruct (now <? e); discriminate.
    + intros (s' & e' & [=] & _).
  - split; try discriminate. intros (s' & e' & [=] & _).
Qed.

Lemma col_min_spec (cells : list (option Z)) (m : Z) :
  col_min cells = Some m
  <-> In (Some m) cells /\ forall v, In (Some v) cells -> m <= v.
Proof.
  revert m. induction cells as [|[c|] cells IH]; intros m; simpl.
  - split; [discriminate|tauto].
  - destruct (col_min cells) as [m'|] eqn:E.
    + destruct (proj1 (IH m') eq_refl) as [Hin Hle]. split.
      * intros [= <-]. split.
        -- destruct (Z.min_spec c m') as [[_ ->]|[_ ->]]; auto.
        -- intros v [[= <-]|Hv]; [lia|]. specialize (Hle v Hv). lia.
      * intros [[[= ->]|Hm] Hall].
        -- f_equal. specialize (Hall m' (or_intror Hin)). lia.
        -- f_equal. pose proof (Hall c (or_introl eq_refl)).
           pose proof (Hle m Hm).
           pose proof (Hall m' (or_intror Hin)). lia.
    + assert (Hnone : forall v, ~ In (Some v) cells).
      { intros v Hv.
        assert (Hex : exists m0, col_min cells = Some m0).
        { clear IH E. induction cells as [|[c'|] cells IH']; simpl in *.
          - destruct Hv.
          - destruct (col_min cells); eauto.
          - destruct Hv as [[=]|Hv]; auto. }
        destruct Hex as (m0 & Hm0). congruence. }
      split.
      * intros [= <-]. split; [auto|].
        intros v [[= <-]|Hv]; [lia|]. destruct (Hnone v Hv).
      * intros [[[= ->]|Hm] _]; [reflexivity|]. destruct (Hnone m Hm).
  - rewrite IH. split.
    + intros [Hin Hle]. split; [auto|]. intros v [[=]|Hv]; auto.
    + intros [[[=]|Hin] Hle]. split; auto.
Qed.

Lemma col_min_none (cells : list (option Z)) :
  col_min cells = None <-> forall v, ~ In (Some v) cells.
Proof.
  split.
  - intros Hn v Hv.
    induction cells as [|[c|] cells IH]; simpl in *.
    + destruct Hv.
    + destruct (col_min cells); discriminate.
    + destruct Hv as [[=]|Hv]; auto.
  - intros Hall.
    destruct (col_min cells) as [m|] eqn:E; [|reflexivity].
    apply col_min_spec in E. destruct E as [Hin _]. destruct (Hall m Hin).
Qed.

Lemma ends_after_In (now : Z) (df : DataFrame) (v : Z) :
  In (Some v) (map end_ (df_filter (fun r => col_gt (end_ r) now) df))
  <-> exists r, In r df /\ end_ r = Some v /\ now < v.
Proof.
  rewrite in_map_iff. split.
  - intros (r & He & Hr). apply df_filter_In in Hr. destruct Hr as [Hr Hm].
    exists r. repeat split; trivial.
    rewrite He in Hm. simpl in Hm. injection Hm as Hm. lia.
  - intros (r & Hr & He & Hlt). exists r. split; [assumption|].
    apply df_filter_In. split; [assumption|].
    rewrite He. simpl. f_equal. lia.
Qed.

Lemma starts_after_In (now : Z) (df : DataFrame) (v : Z) :
  In (Some v) (map start (df_filter (fun r => col_gt (start r) now) df))
  <-> exists r, In r df /\ start r = Some v /\ now < v.
Proof.
  rewrite in_map_iff. split.
  - intros (r & He & Hr). apply df_filter_In in Hr. destruct Hr as [Hr Hm].
    exists r. repeat split; trivial.
    rewrite He in Hm. simpl in Hm. injection Hm as Hm. lia.
  - intros (r & Hr & He & Hlt). exists r. split; [assumption|].
    apply df_filter_In. split; [assumption|].
    rewrite He. simpl. f_equal. lia.
Qed.

Lemma col_min_ends_after (now : Z) (df : DataFrame) (m : Z) :
  col_min (map end_ (df_filter (fun r => col_gt (end_ r) now) df)) = Some m
  <-> least_end_after now df m.
Proof.
  rewrite col_min_spec. unfold least_end_after. rewrite ends_after_In.
  split; intros [Hex Hle]; (split; [assumption|]).
  - intros r e Hr He Hlt. apply Hle. apply ends_after_In. eauto.
  - intros v Hv. apply ends_after_In in Hv. destruct Hv as (r & Hr & He & Hlt).
    eauto.
Qed.

Lemma col_min_starts_after (now : Z) (df : DataFrame) (m : Z) :
  col_min (map start (df_filter (fun r => col_gt (start r) now) df)) = Some m
  <-> least_start_after now df m.
Proof.
  rewrite col_min_spec. unfold least_start_after. rewrite starts_after_In.
  split; intros [Hex Hle]; (split; [assumption|]).
  - intros r e Hr He Hlt. apply Hle. apply starts_after_In. eauto.
  - intros v Hv. apply starts_after_In in Hv.
    destruct Hv as (r & Hr & He & Hlt). eauto.
Qed.

Lemma active_filter_empty (now : Z) (df : DataFrame) :
  is_empty (df_filter
              (fun r => mask_and (col_le (start r) now) (col_gt (end_ r) now)) df)
  = false
  <-> exists r, In r df /\ active now r.
Proof.
  rewrite is_empty_false. split; intros (r & H); exists r.
  - apply df_filter_In in H. now rewrite mask_active in H.
  - apply df_filter_In. now rewrite mask_active.
Qed.

Lemma result_bind_ok {A B : Type} (a : A) (f : A -> result B) :
  (Ok a ≫= f) = f a.
Proof. reflexivity. Qed.

Lemma all_null_false (cells : list (option Z)) :
  all_null cells = false <-> exists v, In (Some v) cells.
Proof.
  induction cells as [|[c|] cells IH]; simpl.
  - split; [discriminate|intros (v & [])].
  - split; [eauto|reflexivity].
  - rewrite IH. split.
    + intros (v & Hv). eauto.
    + intros (v & [[=]|Hv]). eauto.
Qed.

Lemma all_null_start (df : DataFrame) :
  all_null (map start df) = false <-> exists r s, In r df /\ start r = Some s.
Proof.
  rewrite all_null_false. split.
  - intros (v & Hv). apply in_map_iff in Hv. destruct Hv as (r & Hr & Hin). eauto.
  - intros (r & s & Hin & Hs). exists s. apply in_map_iff. eauto.
Qed.

Lemma all_null_end (df : DataFrame) :
  all_null (map end_ df) = false <-> exists r e, In r df /\ end_ r = Some e.
Proof.
  rewrite all_null_false. split.
  - intros (v & Hv). apply in_map_iff in Hv. destruct Hv as (r & Hr & Hin). eauto.
  - intros (r & e & Hin & He). exists e. apply in_map_iff. eauto.
Qed.

Lemma active_has_values (df : DataFrame) (now : Z) :
  (exists r, In r df /\ active now r) -> has_values df.
Proof. intros (r & Hr & s & e & Hs & He & _). split; eauto. Qed.

Lemma frame_of_comparable (ivs : list TimeInterval) : comparable (frame_of ivs).
Proof.
  destruct ivs as [|iv ivs]; [now left|]. right.
  split; exists (row_of iv); eexists; (split; [now left|reflexivity]).
Qed.

Lemma comparable_permutation (df df' : DataFrame) :
  Permutation df df' -> comparable df -> comparable df'.
Proof.
  intros Hp [->|[(r & s & Hr & Hs) (r' & e & Hr' & He)]].
  - left. now apply Permutation_nil.
  - right. split; [exists r, s|exists r', e]; (split; [|assumption]);
      now apply (Permutation_in _ Hp).
Qed.

(** ** [check_room_status] *)

Section Evaluator.

Variable null_dtype_message : string.
Variable strftime_HM : Z -> string.

Lemma check_room_status_busy (df : DataFrame) (now : Z) :
  (exists r, In r df /\ active now r) ->
  exists m, least_end_after now df m /\
            check_room_status null_dtype_message strftime_HM df now
            = Ok ("busy", "booked until " +:+ strftime_HM m).
Proof.
  intros Hact. pose proof Hact as (r & Hr & s & e & Hs & He & Hse).
  assert (Hsome : exists m,
    col_min (map end_ (df_filter (fun r => col_gt (end_ r) now) df)) = Some m).
  { destruct (col_min (map end_ (df_filter (fun r => col_gt (end_ r) now) df)))
      as [m|] eqn:E; [eauto|].
    rewrite col_min_none in E. destruct (E e).
    apply ends_after_In. exists r. repeat split; trivial. lia. }
  destruct Hsome as (m & Hm). exists m.
  split; [now apply col_min_ends_after|].
  unfold check_room_status.
  destruct df as [|r0 df]; [destruct Hr|].
  change (is_empty (r0 :: df)) with false. cbv iota zeta.
  destruct (active_has_values _ _ Hact) as [Hst Hen].
  unfold compare_column.
  rewrite (proj2 (all_null_start _) Hst), (proj2 (all_null_end _) Hen).
  cbv iota. rewrite !result_bind_ok.
  apply active_filter_empty in Hact. rewrite Hact. simpl negb. cbv iota.
  rewrite Hm. reflexivity.
Qed.

Lemma check_room_status_null (df : DataFrame) (now : Z) :
  ~ comparable df ->
  check_room_status null_dtype_message strftime_HM df now
  = Raise (ValueError null_dtype_message).
Proof.
  intros Hn. unfold check_room_status.
  destruct df as [|r0 df]; [destruct Hn; now left|].
  change (is_empty (r0 :: df)) with false. cbv iota. unfold compare_column.
  destruct (all_null (map start (r0 :: df))) eqn:E1; [reflexivity|].
  destruct (all_null (map end_ (r0 :: df))) eqn:E2; [reflexivity|].
  destruct Hn. right. split; [now apply all_null_start|now apply all_null_end].
Qed.

Lemma comparable_dec (df : DataFrame) : comparable df \/ ~ comparable df.
Proof.
  destruct df as [|r0 df]; [left; now left|].
  destruct (all_null (map start (r0 :: df))) eqn:E1.
  - right. intros [[=]|[H _]]. apply all_null_start in H. congruence.
  - destruct (all_null (map end_ (r0 :: df))) eqn:E2.
    + right. intros [[=]|[_ H]]. apply all_null_end in H. congruence.
    + left. right. split; [now apply all_null_start|now apply all_null_end].
Qed.

Lemma check_room_status_free (df : DataFrame) (now : Z) :
  comparable df ->
  ~ (exists r, In r df /\ active now r) ->
  check_room_status null_dtype_message strftime_HM df now
  = Ok ("free",
        match col_min (map start (df_filter (fun r => col_gt (start r) now) df)) with
        | Some v => "free until " +:+ strftime_HM v
        | None => "free for the day"
        end).
Proof.
  intros Hc Hno. unfold check_room_status.
  destruct df as [|r0 df]; [reflexivity|].
  change (is_empty (r0 :: df)) with false. cbv iota zeta.
  destruct Hc as [[=]|[Hst Hen]]. unfold compare_column.
  rewrite (proj2 (all_null_start _) Hst), (proj2 (all_null_end _) Hen).
  cbv iota. rewrite !result_bind_ok.
  rewrite <- active_filter_empty in Hno.
  destruct (is_empty (df_filter _ (r0 :: df))) eqn:E; [|now destruct Hno].
  simpl negb. cbv iota.
  destruct (col_min (map start
              (df_filter (fun r => col_gt (start r) now) (r0 :: df))));
    reflexivity.
Qed.

Lemma check_room_status_free_frame (ivs : list TimeInterval) (now : Z) :
  ~ (exists r, In r (frame_of ivs) /\ active now r) ->
  check_room_status null_dtype_message strftime_HM (frame_of ivs) now
  = Ok ("free",
        match col_min (map start (df_filter (fun r => col_gt (start r) now)
                                    (frame_of ivs))) with
        | Some v => "free until " +:+ strftime_HM v
        | None => "free for the day"
        end).
Proof. apply check_room_status_free, frame_of_comparable. Qed.

Lemma active_dec (df : DataFrame) (now : Z) :
  (exists r, In r df /\ active now r) \/ ~ (exists r, In r df /\ active now r).
Proof.
  rewrite <- active_filter_empty.
  destruct (is_empty (df_filter _ df)); [right; discriminate|now left].
Qed.

Lemma frame_of_In (sched : list TimeInterval) (r : row) :
  In r (frame_of sched) <-> exists iv, In iv sched /\ r = row_of iv.
Proof.
  unfold frame_of. rewrite in_map_iff. split; intros (iv & H1 & H2); eauto.
Qed.

Lemma busy_at_active (now : Z) (sched : list TimeInterval) :
  busy_at now sched <-> exists r, In r (frame_of sched) /\ active now r.
Proof.
  unfold busy_at, active. split.
  - intros (iv & Hin & Hiv). exists (row_of iv). split.
    + apply frame_of_In. eauto.
    + exists (fst iv), (snd iv). auto.
  - intros (r & Hr & s & e & Hs & He & Hse).
    apply frame_of_In in Hr. destruct Hr as (iv & Hin & ->).
    simpl in Hs, He. injection Hs as <-. injection He as <-. eauto.
Qed.

(** C3 (busy is half-open).  For every schedule of complete intervals
    and every instant [now], [check_room_status] returns a state, which
    is [busy] exactly when some interval of the schedule has
    [start <= now < end] and is [free] otherwise.  For the schedule of
    the one interval 10:00 to 11:00 (instants in seconds of the day) the
    state is [free] at 11:00 and [busy] at 10:59:59. *)
Theorem check_room_status_busy_iff (sched : list TimeInterval) (now : Z) :
  (exists state detail : string,
      check_room_status null_dtype_message strftime_HM (frame_of sched) now
      = Ok (state, detail) /\
      (state = "busy" \/ state = "free") /\
      (state = "busy" <-> exists iv, In iv sched /\ fst iv <= now < snd iv)) /\
  (exists detail : string,
      check_room_status null_dtype_message strftime_HM
        (frame_of [(36000, 39600)]) 39600
      = Ok ("free", detail)) /\
  (exists detail : string,
      check_room_status null_dtype_message strftime_HM
        (frame_of [(36000, 39600)]) 39599
      = Ok ("busy", detail)).
Proof.
  split; [|split; eexists; reflexivity].
  pose proof (busy_at_active now sched) as Hb. unfold busy_at in Hb.
  destruct (active_dec (frame_of sched) now) as [Hact|Hno].
  - destruct (check_room_status_busy _ now Hact) as (m & _ & ->).
    eexists _, _. split; [reflexivity|]. split; [now left|]. tauto.
  - rewrite (check_room_status_free_frame sched now Hno).
    eexists _, _. split; [reflexivity|]. split; [now right|].
    split; [discriminate|tauto].
Qed.

(** *** On a merged schedule *)

Lemma least_end_unique (now : Z) (df : DataFrame) (m m' : Z) :
  least_end_after now df m -> least_end_after now df m' -> m = m'.
Proof.
  intros [(r & Hr & He & Hlt) Hle] [(r' & Hr' & He' & Hlt') Hle'].
  pose proof (Hle r' m' Hr' He' Hlt'). pose proof (Hle' r m Hr He Hlt). lia.
Qed.

Lemma earliest_end_least (now : Z) (sched : list TimeInterval) (iv : TimeInterval) :
  StronglySorted gap sched -> Forall valid sched ->
  earliest (fun iv => now <? snd iv) sched = Some iv ->
  least_end_after now (frame_of sched) (snd iv).
Proof.
  unfold earliest.
  induction 1 as [|a rest Hs IH Hall]; intros Hv Hf; [discriminate|].
  inversion Hv as [|? ? Ha Hv']; subst. simpl in Hf.
  destruct (now <? snd a) eqn:E.
  - injection Hf as <-. split.
    + exists (row_of a). simpl. repeat split; auto. lia.
    + intros r e [<-|Hr] He Hlt; simpl in He.
      * injection He as <-. lia.
      * apply frame_of_In in Hr. destruct Hr as (b & Hb & ->).
        simpl in He. injection He as <-.
        rewrite List.Forall_forall in Hall, Hv'.
        pose proof (Hall b Hb) as Hg. pose proof (Hv' b Hb) as Hvb.
        unfold gap, valid in *. lia.
  - destruct (IH Hv' Hf) as [(r & Hr & He & Hlt) Hle]. split.
    + exists r. repeat split; trivial. now right.
    + intros r' e [<-|Hr'] He' Hlt'; [|eauto].
      simpl in He'. injection He' as <-. lia.
Qed.

Lemma earliest_start_least (now : Z) (sched : list TimeInterval) (iv : TimeInterval) :
  StronglySorted by_start sched ->
  earliest (fun iv => now <? fst iv) sched = Some iv ->
  least_start_after now (frame_of sched) (fst iv).
Proof.
  unfold earliest.
  induction 1 as [|a rest Hs IH Hall]; intros Hf; [discriminate|].
  simpl in Hf. destruct (now <? fst a) eqn:E.
  - injection Hf as <-. split.
    + exists (row_of a). simpl. repeat split; auto. lia.
    + intros r s [<-|Hr] Hst Hlt; simpl in Hst.
      * injection Hst as <-. lia.
      * apply frame_of_In in Hr. destruct Hr as (b & Hb & ->).
        simpl in Hst. injection Hst as <-.
        rewrite List.Forall_forall in Hall. exact (Hall b Hb).
  - destruct (IH Hf) as [(r & Hr & Hst & Hlt) Hle]. split.
    + exists r. repeat split; trivial. now right.
    + intros r' s [<-|Hr'] Hst' Hlt'; [|eauto].
      simpl in Hst'. injection Hst' as <-. lia.
Qed.

Lemma earliest_start_none (now : Z) (sched : list TimeInterval) :
  earliest (fun iv => now <? fst iv) sched = None ->
  col_min (map start (df_filter (fun r => col_gt (start r) now) (frame_of sched)))
  = None.
Proof.
  intros Hf. apply col_min_none. intros v Hv.
  apply starts_after_In in Hv. destruct Hv as (r & Hr & Hst & Hlt).
  apply frame_of_In in Hr. destruct Hr as (b & Hb & ->).
  simpl in Hst. injection Hst as <-.
  pose proof (List.find_none _ _ Hf b Hb) as Hp. simpl in Hp. lia.
Qed.

(** C5 (the detail).  For every merged schedule and instant [now]:
    when some interval contains [now], the result is [busy] with
    [booked until t], [t] the end of the earliest interval whose end
    exceeds [now]; when none does and some interval starts after [now],
    it is [free] with [free until s], [s] the start of the earliest
    interval that starts after [now]; otherwise (no interval starts
    after [now], the empty schedule included) it is [free] with
    [free for the day]. *)
Theorem check_room_status_detail (sched : list TimeInterval) (now : Z) :
  MergedSchedule sched ->
  (busy_at now sched /\
   exists iv, earliest (fun iv => now <? snd iv) sched = Some iv /\
              check_room_status null_dtype_message strftime_HM (frame_of sched) now
              = Ok ("busy", "booked until " +:+ strftime_HM (snd iv)))
  \/
  (~ busy_at now sched /\
   exists iv, earliest (fun iv => now <? fst iv) sched = Some iv /\
              check_room_status null_dtype_message strftime_HM (frame_of sched) now
              = Ok ("free", "free until " +:+ strftime_HM (fst iv)))
  \/
  (~ busy_at now sched /\
   earliest (fun iv => now <? fst iv) sched = None /\
   check_room_status null_dtype_message strftime_HM (frame_of sched) now
   = Ok ("free", "free for the day")).
Proof.
  intros (Hv & Hst & Hg).
  pose proof (gap_valid_strongly sched Hg Hv) as Hsg.
  pose proof (Sorted_StronglySorted by_start_transitive Hst) as Hss.
  destruct (active_dec (frame_of sched) now) as [Hact|Hno].
  - left. split; [now apply busy_at_active|].
    destruct (check_room_status_busy _ _ Hact) as (m & Hm & ->).
    destruct (earliest (fun iv => now <? snd iv) sched) as [iv|] eqn:E.
    + exists iv. split; [reflexivity|].
      pose proof (earliest_end_least now sched iv Hsg Hv E) as Hiv.
      now rewrite (least_end_unique _ _ _ _ Hm Hiv).
    + exfalso. apply busy_at_active in Hact. destruct Hact as (b & Hb & Hin).
      pose proof (List.find_none _ _ E b Hb) as Hp. simpl in Hp. lia.
  - right. rewrite (check_room_status_free_frame _ _ Hno).
    rewrite <- busy_at_active in Hno.
    destruct (earliest (fun iv => now <? fst iv) sched) as [iv|] eqn:E.
    + left. split; [assumption|]. exists iv. split; [reflexivity|].
      pose proof (earliest_start_least now sched iv Hss E) as Hiv.
      apply col_min_starts_after in Hiv. now rewrite Hiv.
    + right. split; [assumption|]. split; [reflexivity|].
      now rewrite (earliest_start_none now sched E).
Qed.

(** *** Several rows active at once *)

(** C8, as the code has it.  For every frame in which two rows are
    active at [now], [check_room_status] reports [busy] and its detail
    gives the least of the ends of the frame that exceed [now], which is
    at most the smaller of the two active ends. *)
Theorem check_room_status_two_active
    (df : DataFrame) (now : Z) (i j : nat) (a b : row) (ea eb : Z) :
  i <> j -> df !! i = Some a -> df !! j = Some b ->
  active now a -> active now b ->
  end_ a = Some ea -> end_ b = Some eb ->
  exists m,
    check_room_status null_dtype_message strftime_HM df now
    = Ok ("busy", "booked until " +:+ strftime_HM m) /\
    least_end_after now df m /\ m <= Z.min ea eb.
Proof.
  intros _ Hi Hj Ha Hb Hea Heb.
  assert (Hina : In a df).
  { apply list_elem_of_In. eapply list_elem_of_lookup_2; eauto. }
  assert (Hinb : In b df).
  { apply list_elem_of_In. eapply list_elem_of_lookup_2; eauto. }
  destruct (check_room_status_busy df now (ex_intro _ a (conj Hina Ha)))
    as (m & Hm & Hc).
  exists m. repeat split; trivial; try apply Hm.
  destruct Ha as (sa & ea' & _ & Hea' & Hsa).
  destruct Hb as (sb & eb' & _ & Heb' & Hsb).
  rewrite Hea in Hea'. rewrite Heb in Heb'.
  injection Hea' as <-. injection Heb' as <-.
  destruct Hm as [_ Hle].
  pose proof (Hle a ea Hina Hea). pose proof (Hle b eb Hinb Heb). lia.
Qed.

End Evaluator.

Lemma check_room_status_detail_witness :
  MergedSchedule [(32400, 36000); (48600, 50400)] /\
  ((busy_at 33300 [(32400, 36000); (48600, 50400)] /\
    exists iv,
      earliest (fun iv => 33300 <? snd iv) [(32400, 36000); (48600, 50400)] = Some iv /\
      check_room_status sample_message clock_HM (frame_of [(32400, 36000); (48600, 50400)]) 33300
      = Ok ("busy", "booked until " +:+ clock_HM (snd iv)))
   \/
   (~ busy_at 33300 [(32400, 36000); (48600, 50400)] /\
    exists iv,
      earliest (fun iv => 33300 <? fst iv) [(32400, 36000); (48600, 50400)] = Some iv /\
      check_room_status sample_message clock_HM (frame_of [(32400, 36000); (48600, 50400)]) 33300
      = Ok ("free", "free until " +:+ clock_HM (fst iv)))
   \/
   (~ busy_at 33300 [(32400, 36000); (48600, 50400)] /\
    earliest (fun iv => 33300 <? fst iv) [(32400, 36000); (48600, 50400)] = None /\
    check_room_status sample_message clock_HM (frame_of [(32400, 36000); (48600, 50400)]) 33300
    = Ok ("free", "free for the day"))).
Proof.
  assert (H : MergedSchedule [(32400, 36000); (48600, 50400)]).
  { split; [all_valid|].
    split; repeat constructor; unfold by_start, gap; simpl; lia. }
  split; [exact H|].
  exact (check_room_status_detail sample_message clock_HM [(32400, 36000); (48600, 50400)] 33300 H).
Defined.

(** The worked example of the specification: two touching meetings, asked
    at 9:15. *)
Example busy_detail :
  (merged ← merge_meetings (frame_of [(hm 9 0, hm 9 30); (hm 9 30, hm 10 0)]);
   check_room_status sample_message clock_HM merged (hm 9 15))
  = Ok ("busy", "booked until 10:00").
Proof. reflexivity. Qed.

Lemma check_room_status_two_active_witness :
  let df := frame_of [(hm 9 0, hm 12 0); (hm 9 30, hm 10 0)] in
  exists m,
    check_room_status sample_message clock_HM df (hm 9 45)
    = Ok ("busy", "booked until " +:+ clock_HM m) /\
    least_end_after (hm 9 45) df m /\ m <= Z.min (hm 12 0) (hm 10 0).
Proof.
  intros df.
  apply (check_room_status_two_active sample_message clock_HM df (hm 9 45) 0 1
           (row_of (hm 9 0, hm 12 0)) (row_of (hm 9 30, hm 10 0))
           (hm 12 0) (hm 10 0)).
  - discriminate.
  - reflexivity.
  - reflexivity.
  - exists (hm 9 0), (hm 12 0). repeat split; vm_compute; discriminate.
  - exists (hm 9 30), (hm 10 0). repeat split; vm_compute; discriminate.
  - reflexivity.
  - reflexivity.
Defined.

(** C8, as claimed, fails: with the rows 9:00 to 12:00 and 9:30 to 10:00
    both active at 9:45, the larger active end is 12:00 and the detail
    says 10:00. *)
Lemma check_room_status_larger_end_counterexample :
  ~ (forall (df : DataFrame) (now : Z) (i j : nat) (a b : row) (m : Z),
        i <> j -> df !! i = Some a -> df !! j = Some b ->
        active now a -> active now b ->
        largest_active_end now df m ->
        check_room_status sample_message clock_HM df now
        = Ok ("busy", "booked until " +:+ clock_HM m)).
Proof.
  intros Hclaim.
  assert (Ha : active (hm 9 45) (row_of (hm 9 0, hm 12 0))).
  { exists (hm 9 0), (hm 12 0). repeat split; vm_compute; discriminate. }
  assert (Hb : active (hm 9 45) (row_of (hm 9 30, hm 10 0))).
  { exists (hm 9 30), (hm 10 0). repeat split; vm_compute; discriminate. }
  specialize (Hclaim (frame_of [(hm 9 0, hm 12 0); (hm 9 30, hm 10 0)])
                (hm 9 45) 0%nat 1%nat _ _ (hm 12 0)
                ltac:(discriminate) eq_refl eq_refl Ha Hb).
  assert (Hm : largest_active_end (hm 9 45)
                 (frame_of [(hm 9 0, hm 12 0); (hm 9 30, hm 10 0)]) (hm 12 0)).
  { split.
    - exists (row_of (hm 9 0, hm 12 0)). repeat split; [now left|exact Ha].
    - intros r e [<-|[<-|[]]] _ [= <-]; vm_compute; discriminate. }
  specialize (Hclaim Hm). vm_compute in Hclaim. discriminate.
Qed.

(** ** [merge_meetings] on a frame with a missing end *)

Lemma insert_row_perm (r : row) (df : DataFrame) :
  Permutation (insert_row r df) (r :: df).
Proof.
  induction df as [|r' df IH]; simpl; [reflexivity|].
  destruct (key_le (start r) (start r')); [reflexivity|].
  rewrite IH. apply perm_swap.
Qed.

Lemma sort_perm (df : DataFrame) : Permutation (sort df) df.
Proof.
  induction df as [|r df IH]; simpl; [reflexivity|].
  rewrite insert_row_perm. now constructor.
Qed.

Lemma py_le_inv (a b : option Z) :
  (exists x y, a = Some x /\ b = Some y /\ py_le a b = Ok (x <=? y)) \/
  (exists msg, py_le a b = Raise (TypeError msg)).
Proof.
  destruct a as [x|], b as [y|]; simpl; unfold unsupported; eauto 7.
Qed.

Lemma py_max_inv (a b : option Z) :
  (exists x y, a = Some x /\ b = Some y /\ py_max a b = Ok (Some (Z.max x y))) \/
  (exists msg, py_max a b = Raise (TypeError msg)).
Proof.
  destruct a as [x|], b as [y|];
    try (right; unfold py_max, py_gt, unsupported; simpl; eauto; fail).
  left. exists x, y. repeat split. apply py_max_complete.
Qed.

(** A row is swept without an exception only from an accumulator with an
    end, and a swept row without end becomes the accumulator. *)
Lemma sweep_row_inv (st : sweep) (r : row) :
  (exists msg, sweep_row st r = Raise (TypeError msg)) \/
  (exists st' s ce,
      sweep_row st r = Ok st' /\ start r = Some s /\ current_end st = Some ce /\
      (end_ r = None -> current_start st' = Some s /\ current_end st' = None)).
Proof.
  unfold sweep_row.
  destruct (py_le_inv (start r) (current_end st))
    as [(s & ce & Hs & Hce & ->)|(msg & ->)]; [|left; simpl; eauto].
  simpl. destruct (s <=? ce).
  - destruct (py_max_inv (current_end st) (end_ r))
      as [(x & y & Hx & Hy & ->)|(msg & ->)]; [|left; simpl; eauto].
    right. simpl. eexists _, s, ce. repeat split; trivial; congruence.
  - right. eexists _, s, ce. repeat split; trivial.
Qed.

Lemma iter_rows_missing_end (rows : list row) :
  forall st,
    (exists r, In r rows /\ end_ r = None) ->
    (exists msg, iter_rows rows st = Raise (TypeError msg)) \/
    (exists st' s,
        iter_rows rows st = Ok st' /\
        current_start st' = Some s /\ current_end st' = None).
Proof.
  induction rows as [|r rows IH]; intros st (r0 & Hin & Hnone); [destruct Hin|].
  simpl. destruct (sweep_row_inv st r)
    as [(msg & ->)|(st1 & s & ce & -> & Hs & Hce & Hlast)]; [left; simpl; eauto|].
  simpl. destruct Hin as [<-|Hin].
  - destruct (Hlast Hnone) as [Hcs1 Hce1].
    destruct rows as [|r2 rows]; simpl; [right; eauto|].
    left. destruct (sweep_row_inv st1 r2)
      as [(msg & ->)|(st2 & s2 & ce2 & _ & _ & Hce2 & _)]; [simpl; eauto|].
    congruence.
  - apply IH. eauto.
Qed.

Lemma insert_row_sorted (r : row) (df : DataFrame) :
  Sorted row_le df -> Sorted row_le (insert_row r df).
Proof.
  assert (Htot : forall a b, key_le a b = false -> key_le b a = true).
  { intros [x|] [y|]; simpl; try discriminate; try reflexivity.
    intros H. apply Z.leb_le. apply Z.leb_gt in H. lia. }
  induction df as [|r' df IH]; simpl; intros Hs.
  - repeat constructor.
  - destruct (key_le (start r) (start r')) eqn:E.
    + constructor; [assumption|]. now constructor.
    + inversion Hs as [|? ? Hl Hhd]; subst.
      constructor; [auto|].
      destruct df as [|z df]; simpl.
      * constructor. now apply Htot.
      * destruct (key_le (start r) (start z)); constructor.
        -- now apply Htot.
        -- now inversion Hhd.
Qed.

Lemma sort_sorted (df : DataFrame) : Sorted row_le (sort df).
Proof.
  induction df as [|r df IH]; simpl; [constructor|].
  now apply insert_row_sorted.
Qed.

Lemma row_le_transitive : Transitive row_le.
Proof.
  unfold row_le. intros a b c.
  destruct (start a) as [x|], (start b) as [y|], (start c) as [z|]; simpl;
    try discriminate; try reflexivity.
  rewrite !Z.leb_le. lia.
Qed.

Lemma sorted_frame_of (l : list TimeInterval) (tail : DataFrame) :
  Sorted row_le (frame_of l ++ tail) -> Sorted by_start l.
Proof.
  induction l as [|a l IH]; simpl; intros Hs; [constructor|].
  inversion Hs as [|? ? Hl Hhd]; subst. constructor; [auto|].
  destruct l as [|b l]; [constructor|]. constructor.
  simpl in Hhd. inversion Hhd as [|? ? Hab]; subst.
  unfold row_le in Hab. simpl in Hab. unfold by_start. now apply Z.leb_le.
Qed.

Lemma iter_rows_app (l1 l2 : list row) :
  forall st, iter_rows (l1 ++ l2) st = (st' ← iter_rows l1 st; iter_rows l2 st').
Proof.
  induction l1 as [|r l1 IH]; intros st; simpl; [reflexivity|].
  destruct (sweep_row st r) as [st1|e]; simpl; [apply IH|reflexivity].
Qed.

(** The sweep over complete rows, as a state: the list flushed so far and
    the accumulator are those of [fuse]; the running end is an end that
    was met, and with valid rows it is the largest. *)
Lemma iter_rows_complete (rows : list TimeInterval) :
  forall (m : list row) (cs ce : Z),
  exists (m' : list row) (cs' ce' : Z),
    iter_rows (frame_of rows) (Sweep m (Some cs) (Some ce))
    = Ok (Sweep m' (Some cs') (Some ce')) /\
    m' ++ [Row (Some cs') (Some ce')] = m ++ frame_of (fuse rows cs ce) /\
    (ce' = ce \/ exists b, In b rows /\ snd b = ce') /\
    (Forall valid rows -> ce <= ce' /\ Forall (fun b => snd b <= ce') rows).
Proof.
  induction rows as [|r rows IH]; intros m cs ce.
  - exists m, cs, ce. simpl. repeat split; auto. lia.
  - simpl. unfold sweep_row; simpl. destruct (fst r <=? ce) eqn:E; simpl.
    + replace (if ce <? snd r then Some (snd r) else Some ce)
        with (Some (Z.max ce (snd r)))
        by (destruct (ce <? snd r) eqn:?; f_equal; lia).
      destruct (IH m cs (Z.max ce (snd r)))
        as (m' & cs' & ce' & Hrun & Hflush & Hend & Hmax).
      exists m', cs', ce'. split; [exact Hrun|]. split; [exact Hflush|]. split.
      * destruct Hend as [->|(b & Hb & Hbe)]; [|eauto].
        destruct (Z.max_spec ce (snd r)) as [[_ ->]|[_ ->]]; eauto.
      * intros Hv. inversion Hv as [|? ? Hr Hv']; subst.
        destruct (Hmax Hv') as [Hle Hall]. split; [lia|].
        constructor; [lia|exact Hall].
    + destruct (IH (flush (Sweep m (Some cs) (Some ce))) (fst r) (snd r))
        as (m' & cs' & ce' & Hrun & Hflush & Hend & Hmax).
      exists m', cs', ce'. split; [exact Hrun|]. split.
      * rewrite Hflush. unfold flush; simpl. now rewrite <- app_assoc.
      * split.
        -- right. destruct Hend as [->|(b & Hb & Hbe)]; eauto.
        -- intros Hv. inversion Hv as [|? ? Hr Hv']; subst.
           destruct (Hmax Hv') as [Hle Hall]. apply Z.leb_gt in E.
           unfold valid in Hr. split; [lia|]. constructor; [lia|exact Hall].
Qed.

(** The sweep over complete rows followed by one row without end. *)
Lemma sweep_open_end (f : TimeInterval) (rest : list TimeInterval) (s : Z) :
  exists ce' : Z,
    (exists b, In b (f :: rest) /\ snd b = ce') /\
    (Forall valid (f :: rest) -> Forall (fun b => snd b <= ce') (f :: rest)) /\
    (st ← iter_rows (frame_of (f :: rest) ++ [Row (Some s) None])
           (Sweep [] (Some (fst f)) (Some (snd f)));
     Ok (flush st))
    = if s <=? ce' then Raise (unsupported ">" None (Some ce'))
      else Ok (frame_of (sweep_iv (f :: rest)) ++ [Row (Some s) None]).
Proof.
  destruct (iter_rows_complete (f :: rest) [] (fst f) (snd f))
    as (m' & cs' & ce' & Hrun & Hflush & Hend & Hmax).
  exists ce'. split; [|split].
  - destruct Hend as [->|H]; [exists f; split; [now left|reflexivity]|exact H].
  - intros Hv. exact (proj2 (Hmax Hv)).
  - rewrite iter_rows_app, Hrun. simpl. unfold sweep_row; simpl.
    destruct (s <=? ce'); simpl; [reflexivity|].
    unfold flush; simpl. rewrite Hflush. reflexivity.
Qed.

Lemma iter_rows_ok_shape (rows : list row) :
  forall st st',
    iter_rows rows st = Ok st' ->
    (exists r, In r rows /\ end_ r = None) ->
    exists (front : list TimeInterval) (s : Z),
      rows = frame_of front ++ [Row (Some s) None].
Proof.
  induction rows as [|r rows IH]; intros st st' H (r0 & Hin & Hnone);
    [destruct Hin|].
  simpl in H. destruct (sweep_row_inv st r)
    as [(msg & Hr)|(st1 & s & ce & Hr & Hs & Hce & Hlast)]; rewrite Hr in H;
    [discriminate|]. simpl in H.
  destruct rows as [|r2 rows].
  - destruct Hin as [<-|[]]. exists [], s. destruct r as [st0 en0].
    simpl in *. now subst.
  - destruct (end_ r) as [e|] eqn:Ee.
    + destruct Hin as [<-|Hin]; [congruence|].
      destruct (IH st1 st' H (ex_intro _ r0 (conj Hin Hnone))) as (front & s' & Hshape).
      exists ((s, e) :: front), s'. rewrite Hshape. destruct r as [st0 en0].
      simpl in *. now subst.
    + exfalso. destruct (Hlast eq_refl) as [_ Hce1].
      simpl in H. destruct (sweep_row_inv st1 r2)
        as [(msg & Hr2)|(st2 & s2 & ce2 & _ & _ & Hce2 & _)];
        [rewrite Hr2 in H; discriminate|congruence].
Qed.

Lemma strongly_sorted_tail {A : Type} (R : A -> A -> Prop) (l1 l2 : list A) :
  StronglySorted R (l1 ++ l2) -> StronglySorted R l2.
Proof.
  induction l1 as [|a l1 IH]; simpl; intros H; [exact H|].
  inversion H; subst. auto.
Qed.

(** A sorted frame made of complete rows and one row without end that
    starts after all of them has that row last. *)
Lemma sorted_open_end_last (sorted : DataFrame) (others : list TimeInterval) (s : Z) :
  Sorted row_le sorted ->
  Permutation sorted (frame_of others ++ [Row (Some s) None]) ->
  Forall (fun iv => fst iv < s) others ->
  exists front : list TimeInterval,
    sorted = frame_of front ++ [Row (Some s) None] /\
    Permutation others front /\ Sorted by_start front.
Proof.
  intros Hs Hp Hlo.
  assert (Hin : In (Row (Some s) None) sorted).
  { apply (Permutation_in _ (Permutation_sym Hp)). apply in_or_app. right. now left. }
  apply in_split in Hin. destruct Hin as (l1 & l2 & ->).
  assert (Hp' : Permutation (l1 ++ l2) (frame_of others)).
  { symmetry. apply (Permutation_cons_app_inv l1 l2 (a := Row (Some s) None)).
    rewrite Hp. apply Permutation_cons_append. }
  assert (Hl2 : l2 = []).
  { destruct l2 as [|y l2]; [reflexivity|]. exfalso.
    pose proof (Sorted_StronglySorted row_le_transitive Hs) as Hss.
    apply strongly_sorted_tail in Hss.
    inversion Hss as [|? ? _ Hall]; subst.
    inversion Hall as [|? ? Hy _]; subst.
    assert (Hyin : In y (frame_of others)).
    { apply (Permutation_in _ Hp'). apply in_or_app. right. now left. }
    apply in_map_iff in Hyin. destruct Hyin as (b & <- & Hb).
    rewrite List.Forall_forall in Hlo. pose proof (Hlo b Hb) as Hbs.
    unfold row_le in Hy. simpl in Hy. apply Z.leb_le in Hy. lia. }
  subst l2. rewrite app_nil_r in Hp'.
  apply Permutation_map_inv in Hp'. destruct Hp' as (front & -> & Hpf).
  exists front. split; [reflexivity|]. split; [exact Hpf|].
  exact (sorted_frame_of front _ Hs).
Qed.

Lemma merge_meetings_sorted (df : DataFrame) (first : row) (rest : list row) :
  sort df = first :: rest ->
  merge_meetings df
  = (st ← iter_rows (first :: rest) (Sweep [] (start first) (end_ first));
     Ok (flush st)).
Proof.
  intros Hsort. unfold merge_meetings. destruct df as [|r0 df]; [discriminate|].
  change (is_empty (r0 :: df)) with false. cbv iota zeta. now rewrite Hsort.
Qed.

Lemma merge_meetings_open_end_returns (df : DataFrame)
    (others : list TimeInterval) (s : Z) :
  Forall valid others -> others <> [] ->
  Permutation df (frame_of others ++ [Row (Some s) None]) ->
  Forall (fun iv => snd iv < s) others ->
  merge_meetings df = Ok (frame_of (merge_iv others) ++ [Row (Some s) None]).
Proof.
  intros Hv Hne Hp Hends.
  assert (Hlo : Forall (fun iv => fst iv < s) others).
  { rewrite List.Forall_forall in *. intros iv Hiv.
    pose proof (Hv iv Hiv) as H1. pose proof (Hends iv Hiv) as H2.
    unfold valid in H1. lia. }
  assert (Hps : Permutation (sort df) (frame_of others ++ [Row (Some s) None])).
  { rewrite sort_perm. exact Hp. }
  destruct (sorted_open_end_last (sort df) others s (sort_sorted df) Hps Hlo)
    as (front & Hsort & Hpf & Hsf).
  destruct front as [|f rest].
  { apply Permutation_sym, Permutation_nil in Hpf. contradiction. }
  rewrite (merge_meetings_sorted df (row_of f)
             (frame_of rest ++ [Row (Some s) None]) Hsort).
  change (row_of f :: frame_of rest ++ [Row (Some s) None])
    with (frame_of (f :: rest) ++ [Row (Some s) None]).
  destruct (sweep_open_end f rest s) as (ce' & (b & Hb & Hbe) & _ & Hrun).
  simpl start. simpl end_. rewrite Hrun.
  assert (Hce : ce' < s).
  { rewrite List.Forall_forall in Hends. rewrite <- Hbe. apply Hends.
    now apply (Permutation_in _ (Permutation_sym Hpf)). }
  destruct (s <=? ce') eqn:E; [apply Z.leb_le in E; lia|].
  now rewrite (sweep_iv_any_order others (f :: rest) Hv (Permutation_sym Hpf) Hsf).
Qed.

Lemma merge_meetings_open_end_only (df result : DataFrame) :
  Forall row_valid df ->
  (exists r, In r df /\ end_ r = None) ->
  merge_meetings df = Ok result ->
  exists (others : list TimeInterval) (s : Z),
    others <> [] /\
    Permutation df (frame_of others ++ [Row (Some s) None]) /\
    Forall (fun iv => snd iv < s) others /\
    result = frame_of (merge_iv others) ++ [Row (Some s) None].
Proof.
  intros Hv (r & Hin & Hnone) Hok.
  assert (Hin' : In r (sort df))
    by exact (Permutation_in _ (Permutation_sym (sort_perm df)) Hin).
  destruct (sort df) as [|first rest] eqn:Hsort; [destruct Hin'|].
  rewrite (merge_meetings_sorted df first rest Hsort) in Hok.
  destruct (iter_rows (first :: rest) _) as [st|e] eqn:E; [|discriminate].
  destruct (iter_rows_ok_shape _ _ _ E (ex_intro _ r (conj Hin' Hnone)))
    as (front & s & Hshape).
  destruct front as [|f fr].
  { exfalso. simpl in Hshape. injection Hshape as -> ->. simpl in E.
    unfold sweep_row in E. simpl in E. discriminate. }
  pose proof (sort_sorted df) as Hsorted. rewrite Hsort, Hshape in Hsorted.
  pose proof (sorted_frame_of (f :: fr) _ Hsorted) as Hsf.
  assert (Hpd : Permutation df (frame_of (f :: fr) ++ [Row (Some s) None])).
  { rewrite <- Hshape, <- Hsort. symmetry. apply sort_perm. }
  assert (Hvf : Forall valid (f :: fr)).
  { rewrite List.Forall_forall in *. intros iv Hiv.
    assert (Hrow : In (row_of iv) df).
    { apply (Permutation_in _ (Permutation_sym Hpd)). apply in_or_app. left.
      now apply in_map. }
    exact (Hv _ Hrow). }
  assert (Hfirst : first = row_of f).
  { simpl in Hshape. now injection Hshape. }
  destruct (sweep_open_end f fr s) as (ce' & _ & Hmax & Hrun).
  rewrite Hshape, Hfirst in E. simpl start in E. simpl end_ in E.
  rewrite E in Hrun. simpl in Hrun. simpl in Hok. injection Hok as <-.
  destruct (s <=? ce') eqn:Ele; [discriminate|]. apply Z.leb_gt in Ele.
  injection Hrun as Hrun.
  exists (f :: fr), s. split; [discriminate|]. split; [exact Hpd|]. split.
  - pose proof (Hmax Hvf) as Hall. rewrite List.Forall_forall in *.
    intros iv Hiv. specialize (Hall iv Hiv). simpl in Hall. lia.
  - rewrite Hrun. unfold merge_iv. now rewrite (sort_iv_fixed _ Hsf).
Qed.

(** C7, as the code has it.  For every frame in which some row has no
    end, [merge_meetings] either raises [TypeError] or returns a schedule
    whose last interval still has no end; no end is made up from the
    start.  When the rows that have both cells have [start <= end], a
    schedule is returned exactly when the frame is made of one row
    without end, which has a start, and of at least one complete
    interval, all of which end before that start; the schedule is then
    the merged schedule of the complete intervals followed by the row
    without end. *)
Theorem merge_meetings_missing_end (df : DataFrame) :
  (exists r, In r df /\ end_ r = None) ->
  ((exists msg, merge_meetings df = Raise (TypeError msg)) \/
   (exists out s, merge_meetings df = Ok (out ++ [Row (Some s) None]))) /\
  (Forall row_valid df ->
   forall result : DataFrame,
     merge_meetings df = Ok result <->
     exists (others : list TimeInterval) (s : Z) (out : DataFrame),
       others <> [] /\
       Permutation df (frame_of others ++ [Row (Some s) None]) /\
       Forall (fun iv => snd iv < s) others /\
       merge_meetings (frame_of others) = Ok out /\
       result = out ++ [Row (Some s) None]).
Proof.
  intros Hex. split.
  - destruct Hex as (r & Hin & Hnone). unfold merge_meetings.
    destruct df as [|r0 df]; [destruct Hin|].
    change (is_empty (r0 :: df)) with false. cbv iota zeta.
    assert (Hin' : In r (sort (r0 :: df))).
    { apply (Permutation_in _ (Permutation_sym (sort_perm (r0 :: df))) Hin). }
    destruct (sort (r0 :: df)) as [|first rest]; [destruct Hin'|].
    destruct (iter_rows_missing_end (first :: rest)
                (Sweep [] (start first) (end_ first))
                (ex_intro _ r (conj Hin' Hnone)))
      as [(msg & ->)|(st' & s & -> & Hcs & Hce)].
    + left. simpl. eauto.
    + right. simpl. unfold flush. rewrite Hcs, Hce. eauto.
  - intros Hv result. split.
    + intros Hok.
      destruct (merge_meetings_open_end_only df result Hv Hex Hok)
        as (others & s & Hne & Hp & Hends & ->).
      exists others, s, (frame_of (merge_iv others)).
      repeat split; trivial. apply merge_meetings_frame_of.
    + intros (others & s & out & Hne & Hp & Hends & Hout & ->).
      rewrite merge_meetings_frame_of in Hout. injection Hout as <-.
      apply merge_meetings_open_end_returns; trivial.
      rewrite List.Forall_forall in *. intros iv Hiv.
      assert (Hrow : In (row_of iv) df).
      { apply (Permutation_in _ (Permutation_sym Hp)). apply in_or_app. left.
        now apply in_map. }
      exact (Hv _ Hrow).
Qed.

Lemma merge_meetings_missing_end_witness :
  (exists r, In r [Row (Some 5) None; Row (Some 1) (Some 2)] /\ end_ r = None) /\
  Forall row_valid [Row (Some 5) None; Row (Some 1) (Some 2)] /\
  merge_meetings [Row (Some 5) None; Row (Some 1) (Some 2)]
  = Ok ([Row (Some 1) (Some 2)] ++ [Row (Some 5) None]).
Proof.
  assert (H : exists r, In r [Row (Some 5) None; Row (Some 1) (Some 2)]
                        /\ end_ r = None).
  { exists (Row (Some 5) None). split; [left|]; reflexivity. }
  assert (Hv : Forall row_valid [Row (Some 5) None; Row (Some 1) (Some 2)]).
  { repeat constructor. unfold row_valid; simpl. lia. }
  split; [exact H|]. split; [exact Hv|].
  apply (proj2 (merge_meetings_missing_end
                  [Row (Some 5) None; Row (Some 1) (Some 2)] H) Hv).
  exists [(1, 2)], 5, (frame_of [(1, 2)]).
  split; [discriminate|]. split; [apply perm_swap|].
  split; [repeat constructor|]. split; reflexivity.
Defined.

Example merge_missing_end_alone :
  merge_meetings [Row (Some 5) None]
  = Raise (TypeError "'<=' not supported between instances of 'datetime.datetime' and 'NoneType'").
Proof. reflexivity. Qed.

Example merge_missing_end_overlapping :
  merge_meetings [Row (Some 1) (Some 2); Row (Some 2) None]
  = Raise (TypeError "'>' not supported between instances of 'NoneType' and 'datetime.datetime'").
Proof. reflexivity. Qed.

Example merge_missing_end_last :
  merge_meetings [Row (Some 5) None; Row (Some 1) (Some 2)]
  = Ok [Row (Some 1) (Some 2); Row (Some 5) None].
Proof. reflexivity. Qed.

(** C7, as claimed, fails: the single interval that starts at 5 and has
    no end is not merged as the point [(5, 5)]; the sweep raises. *)
Lemma merge_meetings_point_counterexample :
  ~ (forall df : DataFrame,
        (exists r, In r df /\ end_ r = None) ->
        exists out, merge_meetings df = Ok out /\
                    merge_meetings (map as_point df) = Ok out).
Proof.
  intros Hclaim.
  destruct (Hclaim [Row (Some 5) None]) as (out & Hout & _).
  - exists (Row (Some 5) None). split; [left|]; reflexivity.
  - discriminate Hout.
Qed.

(** ** [update_availability] *)


Section Refresher.

Variable null_dtype_message : string.
Variable strftime_HM : Z -> string.
Variable get_todays_events : string -> result (Z * DataFrame).


Lemma update_room_other (availability : gmap string string)
    (mac_address other : string) (r : room) :
  other <> mac_address ->
  update_room null_dtype_message strftime_HM get_todays_events availability mac_address r !! other
  = availability !! other.
Proof.
  intros Hne. unfold update_room.
  destruct (try_room null_dtype_message strftime_HM get_todays_events r);
    now rewrite lookup_insert_ne.
Qed.


End Refresher.


(** A frame with a missing end makes the merge raise; the room gets an
    error record and the exception stops there. *)
Example update_room_merge_failure :
  update_room sample_message clock_HM (fun _ => Ok (hm 9 0, [Row (Some (hm 10 0)) None])) ∅
    "AA:BB:CC:DD:EE:FF" (Room "Tulip" "https://example.org/tulip.ics")
    !! "AA:BB:CC:DD:EE:FF"%string
  = Some (status_string "Tulip" "error" "'<=' not supported between ins").
Proof. reflexivity. Qed.

(** ** [get_room] *)

Lemma upper_char_idempotent (c : ascii) : upper_char (upper_char c) = upper_char c.
Proof. destruct c as [[] [] [] [] [] [] [] []]; reflexivity. Qed.

Lemma upper_idempotent (s : string) : upper (upper s) = upper s.
Proof.
  induction s as [|c s IH]; simpl; [reflexivity|].
  now rewrite upper_char_idempotent, IH.
Qed.

Example upper_mac : upper "aa:bb:cc:0d:ee:ff" = "AA:BB:CC:0D:EE:FF"%string.
Proof. reflexivity. Qed.

(** C9 (unknown rooms, case-insensitive matching).  [get_room] answers
    every identifier.  An identifier gives what its uppercased form gives;
    and when the store has no entry for it, that is, under the uppercased
    identifier, the key that is looked up and under which the rooms are
    stored, the answer is the sentinel: the name [Unknown Room], the state
    [free], the detail [No data available]. *)
Theorem get_room_unknown (availability : gmap string string) (mac_address : string) :
  get_room availability mac_address = get_room availability (upper mac_address) /\
  (availability !! upper mac_address = None ->
   get_room availability mac_address
   = status_string "Unknown Room" "free" "No data available").
Proof.
  unfold get_room. rewrite upper_idempotent. split; [reflexivity|].
  intros ->. reflexivity.
Qed.

Lemma get_room_unknown_witness :
  let availability : gmap string string :=
    {[ "AA:BB:CC:DD:EE:FF"%string := status_string "Tulip" "busy" "booked until 10:00" ]} in
  availability !! upper "aa:bb:cc:dd:ee:00" = None /\
  get_room availability "aa:bb:cc:dd:ee:00"
  = status_string "Unknown Room" "free" "No data available" /\
  get_room availability "aa:bb:cc:dd:ee:ff"
  = status_string "Tulip" "busy" "booked until 10:00".
Proof.
  intros availability.
  assert (H : availability !! upper "aa:bb:cc:dd:ee:00" = None).
  { apply lookup_singleton_ne. discriminate. }
  split; [exact H|]. split.
  - exact (proj2 (get_room_unknown availability "aa:bb:cc:dd:ee:00") H).
  - rewrite (proj1 (get_room_unknown availability "aa:bb:cc:dd:ee:ff")).
    unfold get_room. rewrite upper_idempotent.
    change (upper "aa:bb:cc:dd:ee:ff") with "AA:BB:CC:DD:EE:FF"%string.
    unfold availability. now rewrite lookup_singleton_eq.
Defined.

(** ** One pass over the rooms *)

Section Scheduler.

Variable null_dtype_message : string.
Variable strftime_HM : Z -> string.
Variable get_todays_events : string -> result (Z * DataFrame).

Lemma update_room_keeps (availability : gmap string string)
    (mac_address key : string) (r : room) :
  is_Some (availability !! key) ->
  is_Some (update_room null_dtype_message strftime_HM get_todays_events availability mac_address r
             !! key).
Proof.
  intros Hk. unfold update_room.
  destruct (try_room null_dtype_message strftime_HM get_todays_events r);
    (destruct (decide (mac_address = key)) as [->|Hne];
     [rewrite lookup_insert_eq; eauto|now rewrite lookup_insert_ne]).
Qed.

Lemma update_cycle_keeps (rooms : list (string * room)) :
  forall (availability : gmap string string) (key : string),
    is_Some (availability !! key) ->
    is_Some (update_cycle null_dtype_message strftime_HM get_todays_events rooms availability !! key).
Proof.
  induction rooms as [|[mac r] rooms IH]; intros availability key Hk; simpl.
  - exact Hk.
  - apply IH. now apply update_room_keeps.
Qed.

(** After a pass every configured room has a record, whichever rooms
    failed. *)
Lemma update_cycle_records (rooms : list (string * room)) :
  forall (availability : gmap string string) (mac_address : string) (r : room),
    In (mac_address, r) rooms ->
    is_Some (update_cycle null_dtype_message strftime_HM get_todays_events rooms availability
               !! mac_address).
Proof.
  induction rooms as [|[mac r0] rooms IH]; intros availability mac_address r Hin;
    [destruct Hin|].
  simpl. destruct Hin as [[= -> ->]|Hin].
  - apply update_cycle_keeps.
    unfold update_room.
    destruct (try_room null_dtype_message strftime_HM get_todays_events r);
      rewrite lookup_insert_eq; eauto.
  - now apply (IH _ _ r).
Qed.

End Scheduler.

(** The calendar of room A cannot be fetched, room B has a meeting from
    10:00 to 11:00 and it is 9:00. *)
Example failure_isolation :
  let fetch := fun url : string =>
    if String.eqb url "https://example.org/a.ics"
    then Raise (Raised "404 Client Error: Not Found for url: https://example.org/a.ics")
    else Ok (hm 9 0, frame_of [(hm 10 0, hm 11 0)]) in
  let availability :=
    update_cycle sample_message clock_HM fetch
      [("AA:AA:AA:AA:AA:AA"%string, Room "A" "https://example.org/a.ics");
       ("BB:BB:BB:BB:BB:BB"%string, Room "B" "https://example.org/b.ics")] ∅ in
  get_room availability "aa:aa:aa:aa:aa:aa"
  = status_string "A" "error" "404 Client Error: Not Found fo" /\
  get_room availability "bb:bb:bb:bb:bb:bb"
  = status_string "B" "free" "free until 10:00".
Proof. split; vm_compute; reflexivity. Qed.

(** * Further properties *)

(** ** [merge_meetings]: order, uniqueness, size *)

Lemma row_of_injective (a b : TimeInterval) : row_of a = row_of b -> a = b.
Proof. destruct a, b. unfold row_of; simpl. congruence. Qed.

Lemma frame_of_injective (l : list TimeInterval) :
  forall l', frame_of l = frame_of l' -> l = l'.
Proof.
  induction l as [|a l IH]; intros [|b l'] H; cbn [frame_of map] in H;
    try discriminate.
  - reflexivity.
  - injection H as Hs He Hl. destruct a, b. simpl in Hs, He. subst.
    f_equal. now apply IH.
Qed.

Lemma merge_iv_permutation (ivs ivs' : list TimeInterval) :
  Forall valid ivs -> Permutation ivs ivs' -> merge_iv ivs' = merge_iv ivs.
Proof.
  intros Hv Hp. apply (sweep_iv_any_order ivs (sort_iv ivs') Hv).
  - rewrite sort_iv_perm. now symmetry.
  - apply sort_iv_sorted.
Qed.

(** X1.  The merge does not depend on the order of the rows: two frames
    of valid intervals that are permutations of each other merge to the
    same schedule. *)
Theorem merge_meetings_permutation (ivs ivs' : list TimeInterval) :
  Forall valid ivs -> Permutation ivs ivs' ->
  merge_meetings (frame_of ivs') = merge_meetings (frame_of ivs).
Proof.
  intros Hv Hp. rewrite !merge_meetings_frame_of.
  now rewrite (merge_iv_permutation ivs ivs' Hv Hp).
Qed.

Lemma merge_meetings_permutation_witness :
  Forall valid [(5, 7); (1, 3); (3, 4)] /\
  Permutation [(5, 7); (1, 3); (3, 4)] [(3, 4); (5, 7); (1, 3)] /\
  merge_meetings (frame_of [(3, 4); (5, 7); (1, 3)])
  = merge_meetings (frame_of [(5, 7); (1, 3); (3, 4)]).
Proof.
  assert (Hp : Permutation [(5, 7); (1, 3); (3, 4)] [(3, 4); (5, 7); (1, 3)]).
  { apply (Permutation_cons_app [(3, 4)] [(1, 3)] (5, 7)).
    apply perm_swap. }
  split; [all_valid|]. split; [exact Hp|].
  apply (merge_meetings_permutation [(5, 7); (1, 3); (3, 4)]); [all_valid|exact Hp].
Defined.

(** X2.  The result is the only merged schedule with the cover of the
    input: a schedule of valid intervals, apart from each other, that
    covers the same instants as a frame of valid intervals is what
    [merge_meetings] returns for that frame. *)
Theorem merge_meetings_unique_cover (ivs sched : list TimeInterval) :
  Forall valid ivs -> MergedSchedule sched ->
  (forall t : Q, covered true sched t <-> covered true ivs t) ->
  merge_meetings (frame_of ivs) = Ok (frame_of sched).
Proof.
  intros Hv (Hvs & _ & Hg) Hcov. rewrite merge_meetings_frame_of.
  do 2 f_equal. apply schedule_unique.
  - now apply merge_iv_valid.
  - apply gap_valid_strongly; [apply merge_iv_gap|now apply merge_iv_valid].
  - exact Hvs.
  - now apply gap_valid_strongly.
  - intros t. rewrite merge_iv_covered. symmetry. apply Hcov.
Qed.

Lemma merge_meetings_unique_cover_witness :
  Forall valid [(1, 3); (2, 6)] /\ MergedSchedule [(1, 6)] /\
  merge_meetings (frame_of [(1, 3); (2, 6)]) = Ok (frame_of [(1, 6)]).
Proof.
  assert (Hv : Forall valid [(1, 3); (2, 6)]) by all_valid.
  assert (Hm : MergedSchedule [(1, 6)]).
  { split; [all_valid|]. split; repeat constructor. }
  split; [exact Hv|]. split; [exact Hm|].
  apply (merge_meetings_unique_cover [(1, 3); (2, 6)] [(1, 6)] Hv Hm).
  intros t. unfold covered, inside. split.
  - intros (iv & [<-|[]] & Hlo & Hhi). simpl in Hlo, Hhi.
    destruct (Qlt_le_dec 3 t) as [Hlt|Hle].
    + exists (2, 6). split; [right; now left|]. simpl.
      unfold inject_Z in *. split; lra.
    + exists (1, 3). split; [now left|]. simpl.
      unfold inject_Z in *. split; lra.
  - intros (iv & [<-|[<-|[]]] & Hlo & Hhi); simpl in Hlo, Hhi;
      (exists (1, 6); split; [now left|]; simpl; unfold inject_Z in *; split; lra).
Defined.

(** X3.  A frame of valid intervals is returned unchanged exactly when
    its consecutive intervals are already apart ([a.end < b.start]). *)
Theorem merge_meetings_fixed_iff (ivs : list TimeInterval) :
  Forall valid ivs ->
  merge_meetings (frame_of ivs) = Ok (frame_of ivs) <-> Sorted gap ivs.
Proof.
  intros Hv. rewrite merge_meetings_frame_of. split.
  - intros [= H]. apply frame_of_injective in H.
    rewrite <- H. apply merge_iv_gap.
  - intros Hg. now rewrite (merge_iv_fixed ivs Hg Hv).
Qed.

Lemma merge_meetings_fixed_iff_witness :
  Forall valid [(1, 2); (4, 4); (6, 9)] /\
  (merge_meetings (frame_of [(1, 2); (4, 4); (6, 9)])
   = Ok (frame_of [(1, 2); (4, 4); (6, 9)])
   <-> Sorted gap [(1, 2); (4, 4); (6, 9)]).
Proof.
  split; [all_valid|].
  apply (merge_meetings_fixed_iff [(1, 2); (4, 4); (6, 9)]). all_valid.
Defined.

Lemma fuse_length (rows : list TimeInterval) :
  forall cs ce, (length (fuse rows cs ce) <= S (length rows))%nat.
Proof.
  induction rows as [|r rows IH]; intros cs ce; simpl; [lia|].
  destruct (fst r <=? ce).
  - specialize (IH cs (Z.max ce (snd r))). lia.
  - specialize (IH (fst r) (snd r)). simpl. lia.
Qed.

Lemma merge_iv_length (ivs : list TimeInterval) :
  Forall valid ivs -> (length (merge_iv ivs) <= length ivs)%nat.
Proof.
  intros Hv. rewrite <- (Permutation_length (sort_iv_perm ivs)).
  assert (Hv' : Forall valid (sort_iv ivs))
    by exact (Permutation_Forall (Permutation_sym (sort_iv_perm ivs)) Hv).
  unfold merge_iv, sweep_iv. destruct (sort_iv ivs) as [|[s e] rest]; [lia|].
  inversion Hv' as [|? ? Hse _]; subst. unfold valid in Hse; simpl in Hse.
  simpl. destruct (s <=? e) eqn:E; [|lia].
  apply fuse_length.
Qed.

Lemma merge_iv_nil (ivs : list TimeInterval) : merge_iv ivs = [] <-> ivs = [].
Proof.
  split; [|now intros ->].
  unfold merge_iv, sweep_iv. intros H.
  destruct (sort_iv ivs) as [|first rest] eqn:E.
  - destruct ivs as [|x l]; [reflexivity|]. simpl in E.
    destruct (insert_iv_cons x (sort_iv l)) as (y & tl & Hy). congruence.
  - destruct (fuse_head (first :: rest) (fst first) (snd first))
      as (ce' & tl & Hf). congruence.
Qed.

(** X4.  Merging valid intervals never gives more intervals than it was
    given, and gives none only for the empty frame. *)
Theorem merge_meetings_length (ivs : list TimeInterval) :
  Forall valid ivs ->
  exists out : list TimeInterval,
    merge_meetings (frame_of ivs) = Ok (frame_of out) /\
    (length out <= length ivs)%nat /\
    (out = [] <-> ivs = []).
Proof.
  intros Hv. exists (merge_iv ivs).
  split; [apply merge_meetings_frame_of|].
  split; [now apply merge_iv_length|apply merge_iv_nil].
Qed.

Lemma merge_meetings_length_witness :
  Forall valid [(1, 5); (2, 3); (5, 6); (8, 9)] /\
  exists out : list TimeInterval,
    merge_meetings (frame_of [(1, 5); (2, 3); (5, 6); (8, 9)]) = Ok (frame_of out) /\
    (length out <= length [(1, 5); (2, 3); (5, 6); (8, 9)])%nat /\
    (out = [] <-> [(1, 5); (2, 3); (5, 6); (8, 9)] = []).
Proof.
  split; [all_valid|].
  apply (merge_meetings_length [(1, 5); (2, 3); (5, 6); (8, 9)]). all_valid.
Defined.

Lemma fuse_endpoints (rows : list TimeInterval) :
  forall cs ce iv,
    In iv (fuse rows cs ce) ->
    (fst iv = cs \/ exists a, In a rows /\ fst a = fst iv) /\
    (snd iv = ce \/ exists b, In b rows /\ snd b = snd iv).
Proof.
  induction rows as [|r rows IH]; intros cs ce iv Hin; simpl in Hin.
  - destruct Hin as [<-|[]]. simpl. auto.
  - destruct (fst r <=? ce).
    + destruct (IH _ _ _ Hin) as [Hs He]. split.
      * destruct Hs as [Hs|(a & Ha & Hs)]; [now left|].
        right. exists a. split; [now right|assumption].
      * destruct He as [He|(b & Hb & He)].
        -- destruct (Z.max_spec ce (snd r)) as [[_ Hm]|[_ Hm]];
             rewrite Hm in He; [right; exists r; split; [now left|congruence]
                               |now left].
        -- right. exists b. split; [now right|assumption].
    + destruct Hin as [<-|Hin]; [simpl; auto|].
      destruct (IH _ _ _ Hin) as [Hs He]. split.
      * right. destruct Hs as [Hs|(a & Ha & Hs)].
        -- exists r. split; [now left|congruence].
        -- exists a. split; [now right|assumption].
      * right. destruct He as [He|(b & Hb & He)].
        -- exists r. split; [now left|congruence].
        -- exists b. split; [now right|assumption].
Qed.

Lemma merge_iv_endpoints (ivs : list TimeInterval) (iv : TimeInterval) :
  In iv (merge_iv ivs) ->
  (exists a, In a ivs /\ fst a = fst iv) /\ (exists b, In b ivs /\ snd b = snd iv).
Proof.
  unfold merge_iv, sweep_iv. pose proof (sort_iv_perm ivs) as Hp.
  destruct (sort_iv ivs) as [|first rest]; [intros []|]. intros Hin.
  assert (Hfirst : In first ivs) by (apply (Permutation_in _ Hp); now left).
  destruct (fuse_endpoints _ _ _ _ Hin) as [Hs He]. split.
  - destruct Hs as [Hs|(a & Ha & Hs)]; [exists first; auto|].
    exists a. split; [now apply (Permutation_in _ Hp)|assumption].
  - destruct He as [He|(b & Hb & He)]; [exists first; auto|].
    exists b. split; [now apply (Permutation_in _ Hp)|assumption].
Qed.

(** X5.  The merge invents no instant: the start of every returned
    interval is the start of some input interval, and its end is the end
    of some input interval. *)
Theorem merge_meetings_endpoints (ivs : list TimeInterval) :
  exists out : list TimeInterval,
    merge_meetings (frame_of ivs) = Ok (frame_of out) /\
    forall iv : TimeInterval,
      In iv out ->
      (exists a, In a ivs /\ fst a = fst iv) /\
      (exists b, In b ivs /\ snd b = snd iv).
Proof.
  exists (merge_iv ivs). split; [apply merge_meetings_frame_of|].
  intros iv. apply merge_iv_endpoints.
Qed.

Lemma merge_meetings_endpoints_witness :
  exists out : list TimeInterval,
    merge_meetings (frame_of [(1, 3); (2, 6); (8, 9)]) = Ok (frame_of out) /\
    forall iv : TimeInterval,
      In iv out ->
      (exists a, In a [(1, 3); (2, 6); (8, 9)] /\ fst a = fst iv) /\
      (exists b, In b [(1, 3); (2, 6); (8, 9)] /\ snd b = snd iv).
Proof. exact (merge_meetings_endpoints [(1, 3); (2, 6); (8, 9)]). Defined.

Lemma covered_app (closed : bool) (l1 l2 : list TimeInterval) (t : Q) :
  covered closed (l1 ++ l2) t <-> covered closed l1 t \/ covered closed l2 t.
Proof.
  unfold covered. split.
  - intros (iv & Hin & Hi). apply in_app_or in Hin. destruct Hin; eauto.
  - intros [(iv & Hin & Hi)|(iv & Hin & Hi)]; exists iv; split; trivial;
      apply in_or_app; auto.
Qed.

Lemma merge_iv_incremental (l1 l2 : list TimeInterval) :
  Forall valid l1 -> Forall valid l2 ->
  merge_iv (merge_iv l1 ++ l2) = merge_iv (l1 ++ l2).
Proof.
  intros Hv1 Hv2.
  assert (Hva : Forall valid (merge_iv l1 ++ l2)).
  { apply List.Forall_app. split; [now apply merge_iv_valid|assumption]. }
  assert (Hvb : Forall valid (l1 ++ l2)).
  { apply List.Forall_app. now split. }
  apply schedule_unique.
  - now apply merge_iv_valid.
  - apply gap_valid_strongly; [apply merge_iv_gap|now apply merge_iv_valid].
  - now apply merge_iv_valid.
  - apply gap_valid_strongly; [apply merge_iv_gap|now apply merge_iv_valid].
  - intros t. rewrite !merge_iv_covered, !covered_app, merge_iv_covered.
    reflexivity.
Qed.

(** X6.  Merging can be done in steps: merging a merged schedule
    together with further valid intervals gives what merging all the
    intervals at once gives. *)
Theorem merge_meetings_incremental (l1 l2 : list TimeInterval) :
  Forall valid l1 -> Forall valid l2 ->
  exists merged1 : DataFrame,
    merge_meetings (frame_of l1) = Ok merged1 /\
    merge_meetings (merged1 ++ frame_of l2) = merge_meetings (frame_of (l1 ++ l2)).
Proof.
  intros Hv1 Hv2. exists (frame_of (merge_iv l1)).
  split; [apply merge_meetings_frame_of|].
  unfold frame_of. rewrite <- map_app. fold (frame_of (merge_iv l1 ++ l2)).
  fold (frame_of (l1 ++ l2)). rewrite !merge_meetings_frame_of.
  now rewrite merge_iv_incremental.
Qed.

Lemma merge_meetings_incremental_witness :
  Forall valid [(1, 3); (2, 4)] /\ Forall valid [(4, 6); (9, 9)] /\
  exists merged1 : DataFrame,
    merge_meetings (frame_of [(1, 3); (2, 4)]) = Ok merged1 /\
    merge_meetings (merged1 ++ frame_of [(4, 6); (9, 9)])
    = merge_meetings (frame_of ([(1, 3); (2, 4)] ++ [(4, 6); (9, 9)])).
Proof.
  split; [all_valid|]. split; [all_valid|].
  apply (merge_meetings_incremental [(1, 3); (2, 4)] [(4, 6); (9, 9)]); all_valid.
Defined.

(** ** [merge_meetings]: what it raises *)

Lemma insert_row_head_none (r : row) (df : DataFrame) :
  start r = None \/ (exists r' rest, df = r' :: rest /\ start r' = None) ->
  exists r0 rest, insert_row r df = r0 :: rest /\ start r0 = None.
Proof.
  intros [Hr|(r' & rest & -> & Hr')].
  - destruct df as [|r' rest]; simpl; [eauto|]. rewrite Hr. simpl. eauto.
  - simpl. rewrite Hr'. destruct (start r) as [s|] eqn:E; simpl; eauto.
Qed.

Lemma sort_head_none (df : DataFrame) :
  (exists r, In r df /\ start r = None) ->
  exists r0 rest, sort df = r0 :: rest /\ start r0 = None.
Proof.
  induction df as [|r df IH]; intros (r1 & Hin & Hnone); [destruct Hin|].
  simpl. apply insert_row_head_none. destruct Hin as [<-|Hin]; [now left|].
  right. apply IH. eauto.
Qed.

Lemma iter_rows_raise (rows : list row) :
  forall st e, iter_rows rows st = Raise e -> exists msg, e = TypeError msg.
Proof.
  induction rows as [|r rows IH]; intros st e H; simpl in H; [discriminate|].
  destruct (sweep_row_inv st r) as [(msg & Hr)|(st' & s & ce & Hr & _)];
    rewrite Hr in H; simpl in H.
  - injection H as <-. eauto.
  - eauto.
Qed.

(** X7.  A frame in which some row has no start is never merged: the
    rows without start sort first and the first comparison of the sweep
    raises [TypeError]. *)
Theorem merge_meetings_missing_start (df : DataFrame) :
  (exists r, In r df /\ start r = None) ->
  exists msg, merge_meetings df = Raise (TypeError msg).
Proof.
  intros Hex. pose proof Hex as (r & Hin & _).
  destruct (sort_head_none df Hex) as (r0 & rest & Hsort & Hnone).
  unfold merge_meetings. destruct df as [|r1 df]; [destruct Hin|].
  change (is_empty (r1 :: df)) with false. cbv iota zeta. rewrite Hsort.
  simpl. unfold sweep_row. simpl. rewrite Hnone. simpl. eauto.
Qed.

Lemma merge_meetings_missing_start_witness :
  (exists r, In r [Row (Some 1) (Some 2); Row None (Some 5)] /\ start r = None) /\
  exists msg,
    merge_meetings [Row (Some 1) (Some 2); Row None (Some 5)] = Raise (TypeError msg).
Proof.
  assert (H : exists r, In r [Row (Some 1) (Some 2); Row None (Some 5)]
                        /\ start r = None).
  { exists (Row None (Some 5)). split; [right; left|]; reflexivity. }
  split; [exact H|].
  exact (merge_meetings_missing_start [Row (Some 1) (Some 2); Row None (Some 5)] H).
Defined.

Lemma merge_meetings_raise_inv (df : DataFrame) (e : PyException) :
  merge_meetings df = Raise e -> exists msg, e = TypeError msg.
Proof.
  unfold merge_meetings. destruct df as [|r df]; [discriminate|].
  change (is_empty (r :: df)) with false. cbv iota zeta.
  pose proof (Permutation_length (sort_perm (r :: df))) as Hlen.
  destruct (sort (r :: df)) as [|first rest]; [discriminate Hlen|].
  destruct (iter_rows (first :: rest) _) as [st|e0] eqn:E; simpl; [discriminate|].
  intros [= <-]. exact (iter_rows_raise _ _ _ E).
Qed.

Lemma complete_or_missing (df : DataFrame) :
  (exists ivs, df = frame_of ivs) \/
  (exists r, In r df /\ (start r = None \/ end_ r = None)).
Proof.
  induction df as [|[[s|] [e|]] df IH];
    try (right; eexists; split; [now left|simpl; auto]; fail).
  - left. now exists [].
  - destruct IH as [(ivs & ->)|(r & Hr & Hm)].
    + left. now exists ((s, e) :: ivs).
    + right. exists r. split; [now right|assumption].
Qed.

(** X8.  [merge_meetings] raises nothing but [TypeError], and only on a
    frame with a missing cell: the access to the first row is never out
    of range, and a frame whose rows all have a start and an end is
    always merged. *)
Theorem merge_meetings_raises_type_error (df : DataFrame) (e : PyException) :
  merge_meetings df = Raise e ->
  (exists msg, e = TypeError msg) /\
  (exists r, In r df /\ (start r = None \/ end_ r = None)).
Proof.
  intros H. split; [exact (merge_meetings_raise_inv df e H)|].
  destruct (complete_or_missing df) as [(ivs & ->)|Hm]; [|exact Hm].
  rewrite merge_meetings_frame_of in H. discriminate H.
Qed.

Lemma merge_meetings_raises_type_error_witness :
  (exists msg, unsupported ">" None (Some 2) = TypeError msg) /\
  (exists r, In r [Row (Some 1) (Some 2); Row (Some 2) None]
             /\ (start r = None \/ end_ r = None)).
Proof.
  apply (merge_meetings_raises_type_error
           [Row (Some 1) (Some 2); Row (Some 2) None]).
  reflexivity.
Defined.

Lemma insert_iv_first (f : TimeInterval) (l : list TimeInterval) :
  Forall (fun iv => fst f < fst iv) l -> insert_iv f l = f :: l.
Proof.
  intros H. destruct l as [|y l]; simpl; [reflexivity|].
  inversion H as [|? ? Hy _]; subst.
  destruct (fst f <=? fst y) eqn:E; [reflexivity|lia].
Qed.

(** X9.  An interval that ends before it starts is not repaired: when it
    is the one that starts first, the schedule returned begins with it
    twice. *)
Theorem merge_meetings_invalid_first_twice
    (f : TimeInterval) (rest : list TimeInterval) :
  snd f < fst f -> Forall (fun iv => fst f < fst iv) rest ->
  exists tl : list TimeInterval,
    merge_meetings (frame_of (f :: rest)) = Ok (frame_of (f :: f :: tl)).
Proof.
  intros Hinv Hlo. rewrite merge_meetings_frame_of.
  unfold merge_iv, sweep_iv. simpl sort_iv.
  assert (Hlo' : Forall (fun iv => fst f < fst iv) (sort_iv rest))
    by exact (Permutation_Forall (Permutation_sym (sort_iv_perm rest)) Hlo).
  rewrite (insert_iv_first f _ Hlo'). destruct f as [s e]. simpl in *.
  destruct (s <=? e) eqn:E; [lia|].
  destruct (sort_iv rest) as [|[s1 e1] tl]; simpl.
  - exists []. reflexivity.
  - inversion Hlo' as [|? ? H1 _]; subst. simpl in H1.
    destruct (s1 <=? e) eqn:E1; [lia|].
    eexists. reflexivity.
Qed.

Lemma merge_meetings_invalid_first_twice_witness :
  snd (3, 2) < fst (3, 2) /\ Forall (fun iv => fst (3, 2) < fst iv) [(5, 6)] /\
  exists tl : list TimeInterval,
    merge_meetings (frame_of [(3, 2); (5, 6)]) = Ok (frame_of ((3, 2) :: (3, 2) :: tl)).
Proof.
  assert (H1 : snd (3, 2) < fst (3, 2)) by (simpl; lia).
  assert (H2 : Forall (fun iv => fst (3, 2) < fst iv) [(5, 6)]).
  { repeat constructor. }
  split; [exact H1|]. split; [exact H2|].
  exact (merge_meetings_invalid_first_twice (3, 2) [(5, 6)] H1 H2).
Defined.

(** ** [check_room_status] on any frame *)

Lemma col_min_ext (c1 c2 : list (option Z)) :
  (forall v, In (Some v) c1 <-> In (Some v) c2) -> col_min c1 = col_min c2.
Proof.
  intros Hext. destruct (col_min c1) as [m|] eqn:E1; symmetry.
  - apply col_min_spec in E1. destruct E1 as [Hin Hle].
    apply col_min_spec. split; [now apply Hext|].
    intros v Hv. apply Hle. now apply Hext.
  - apply col_min_none. intros v Hv.
    apply (proj1 (col_min_none c1) E1 v). now apply Hext.
Qed.

Lemma free_until_not_for_the_day (t : string) :
  "free until " +:+ t <> "free for the day"%string.
Proof. simpl. discriminate. Qed.

Section EvaluatorOnFrames.

Variable null_dtype_message : string.
Variable strftime_HM : Z -> string.

(** X10.  On every frame of complete intervals, merged or not, the
    answer has one of three forms: [busy] with the least end that is
    later than [now], when some row is active; [free] with the least
    start that is later than [now], when no row is active and some row
    starts later; [free for the day] when no row is active and none
    starts later.  The time shown is always later than [now] and is a
    cell of the frame. *)
Theorem check_room_status_cases (ivs : list TimeInterval) (now : Z) :
  (exists m,
      busy_at now ivs /\ least_end_after now (frame_of ivs) m /\
      check_room_status null_dtype_message strftime_HM (frame_of ivs) now
      = Ok ("busy", "booked until " +:+ strftime_HM m))
  \/
  (exists m,
      ~ busy_at now ivs /\ least_start_after now (frame_of ivs) m /\
      check_room_status null_dtype_message strftime_HM (frame_of ivs) now
      = Ok ("free", "free until " +:+ strftime_HM m))
  \/
  (~ busy_at now ivs /\
   (forall iv, In iv ivs -> fst iv <= now) /\
   check_room_status null_dtype_message strftime_HM (frame_of ivs) now
   = Ok ("free", "free for the day")).
Proof.
  pose proof (busy_at_active now ivs) as Hb.
  destruct (active_dec (frame_of ivs) now) as [Hact|Hno].
  - left. destruct (check_room_status_busy null_dtype_message strftime_HM
                      _ now Hact) as (m & Hm & Hc).
    exists m. split; [now apply Hb|]. now split.
  - right.
    rewrite (check_room_status_free_frame null_dtype_message strftime_HM ivs now Hno).
    rewrite <- Hb in Hno.
    destruct (col_min (map start (df_filter (fun r => col_gt (start r) now)
                                    (frame_of ivs)))) as [m|] eqn:E.
    + left. exists m. apply col_min_starts_after in E. auto.
    + right. split; [assumption|]. split; [|reflexivity].
      intros iv Hiv. destruct (Z_le_gt_dec (fst iv) now) as [Hle|Hgt]; [exact Hle|].
      exfalso. apply (proj1 (col_min_none _) E (fst iv)).
      apply starts_after_In. exists (row_of iv).
      split; [exact (in_map row_of _ _ Hiv)|]. split; [reflexivity|lia].
Qed.

(** X11.  On a frame of complete intervals [free for the day] is the
    answer exactly when no interval contains [now] and no interval
    starts after [now]. *)
Theorem check_room_status_free_for_the_day (ivs : list TimeInterval) (now : Z) :
  check_room_status null_dtype_message strftime_HM (frame_of ivs) now
  = Ok ("free", "free for the day")
  <-> ~ busy_at now ivs /\ (forall iv, In iv ivs -> fst iv <= now).
Proof.
  rewrite busy_at_active. split.
  - intros H. destruct (active_dec (frame_of ivs) now) as [Hact|Hno].
    + destruct (check_room_status_busy null_dtype_message strftime_HM
                  _ now Hact) as (m & _ & Hc).
      rewrite Hc in H. discriminate H.
    + split; [assumption|]. intros iv Hiv.
      destruct (Z_le_gt_dec (fst iv) now) as [Hle|Hgt]; [exact Hle|]. exfalso.
      rewrite (check_room_status_free_frame null_dtype_message strftime_HM
                 ivs now Hno) in H.
      destruct (col_min (map start (df_filter (fun r => col_gt (start r) now)
                                      (frame_of ivs)))) as [m|] eqn:E.
      * apply (free_until_not_for_the_day (strftime_HM m)). congruence.
      * apply (proj1 (col_min_none _) E (fst iv)).
        apply starts_after_In. exists (row_of iv).
        split; [exact (in_map row_of _ _ Hiv)|]. split; [reflexivity|lia].
  - intros [Hno Hall].
    rewrite (check_room_status_free_frame null_dtype_message strftime_HM ivs now Hno).
    destruct (col_min (map start (df_filter (fun r => col_gt (start r) now)
                                    (frame_of ivs)))) as [m|] eqn:E; [|reflexivity].
    apply col_min_starts_after in E. destruct E as [(r & Hr & Hs & Hlt) _].
    apply frame_of_In in Hr. destruct Hr as (iv & Hiv & ->).
    simpl in Hs. injection Hs as <-. specialize (Hall iv Hiv). lia.
Qed.

Lemma active_permutation (df df' : DataFrame) (now : Z) :
  Permutation df df' ->
  (exists r, In r df /\ active now r) -> exists r, In r df' /\ active now r.
Proof.
  intros Hp (r & Hr & Ha). exists r. split; [|exact Ha].
  now apply (Permutation_in _ Hp).
Qed.

(** X12.  The evaluation does not depend on the order of the rows: it
    gives the same answer on two frames that are permutations of each
    other, so it does not need a sorted schedule. *)
Theorem check_room_status_permutation (df df' : DataFrame) (now : Z) :
  Permutation df df' ->
  check_room_status null_dtype_message strftime_HM df' now
  = check_room_status null_dtype_message strftime_HM df now.
Proof.
  intros Hp. destruct (comparable_dec df) as [Hc|Hn].
  - pose proof (comparable_permutation df df' Hp Hc) as Hc'.
    destruct (active_dec df now) as [Hact|Hno].
    + destruct (check_room_status_busy null_dtype_message strftime_HM
                  df now Hact) as (m & Hm & ->).
      destruct (check_room_status_busy null_dtype_message strftime_HM df' now
                  (active_permutation df df' now Hp Hact)) as (m' & Hm' & ->).
      assert (Hm2 : least_end_after now df m').
      { destruct Hm' as [(r & Hr & He & Hlt) Hle]. split.
        - exists r. repeat split; trivial.
          now apply (Permutation_in _ (Permutation_sym Hp)).
        - intros r0 e0 Hr0. apply Hle. now apply (Permutation_in _ Hp). }
      now rewrite (least_end_unique now df m m' Hm Hm2).
    + assert (Hno' : ~ (exists r, In r df' /\ active now r)).
      { intros H. apply Hno.
        exact (active_permutation df' df now (Permutation_sym Hp) H). }
      rewrite (check_room_status_free null_dtype_message strftime_HM df now Hc Hno).
      rewrite (check_room_status_free null_dtype_message strftime_HM df' now Hc' Hno').
      rewrite (col_min_ext
                 (map start (df_filter (fun r => col_gt (start r) now) df'))
                 (map start (df_filter (fun r => col_gt (start r) now) df)));
        [reflexivity|].
      intros v. rewrite !starts_after_In.
      split; intros (r & Hr & H); exists r; (split; [|exact H]).
      * now apply (Permutation_in _ (Permutation_sym Hp)).
      * now apply (Permutation_in _ Hp).
  - assert (Hn' : ~ comparable df').
    { intros Hc'. apply Hn.
      exact (comparable_permutation df' df (Permutation_sym Hp) Hc'). }
    rewrite (check_room_status_null null_dtype_message strftime_HM df now Hn).
    now rewrite (check_room_status_null null_dtype_message strftime_HM df' now Hn').
Qed.

End EvaluatorOnFrames.

Lemma check_room_status_cases_witness :
  exists m,
    busy_at (hm 9 45) [(hm 9 0, hm 12 0); (hm 9 30, hm 10 0)] /\
    least_end_after (hm 9 45) (frame_of [(hm 9 0, hm 12 0); (hm 9 30, hm 10 0)]) m /\
    check_room_status sample_message clock_HM
      (frame_of [(hm 9 0, hm 12 0); (hm 9 30, hm 10 0)]) (hm 9 45)
    = Ok ("busy", "booked until " +:+ clock_HM m).
Proof.
  destruct (check_room_status_cases sample_message clock_HM
              [(hm 9 0, hm 12 0); (hm 9 30, hm 10 0)] (hm 9 45))
    as [H|[(m & _ & _ & H)|(_ & _ & H)]]; [exact H|discriminate H|discriminate H].
Defined.

Lemma check_room_status_permutation_witness :
  Permutation (frame_of [(hm 9 0, hm 10 0); (hm 13 0, hm 14 0)])
              (frame_of [(hm 13 0, hm 14 0); (hm 9 0, hm 10 0)]) /\
  check_room_status sample_message clock_HM
    (frame_of [(hm 13 0, hm 14 0); (hm 9 0, hm 10 0)]) (hm 11 0)
  = check_room_status sample_message clock_HM
      (frame_of [(hm 9 0, hm 10 0); (hm 13 0, hm 14 0)]) (hm 11 0).
Proof.
  assert (Hp : Permutation (frame_of [(hm 9 0, hm 10 0); (hm 13 0, hm 14 0)])
                           (frame_of [(hm 13 0, hm 14 0); (hm 9 0, hm 10 0)])).
  { apply perm_swap. }
  split; [exact Hp|].
  exact (check_room_status_permutation sample_message clock_HM _ _ (hm 11 0) Hp).
Defined.

(** ** The merge followed by the evaluation *)

Lemma busy_at_covered (now : Z) (l : list TimeInterval) :
  busy_at now l <-> covered false l (inject_Z now).
Proof.
  unfold busy_at, covered, inside.
  split; intros (iv & Hin & H); exists iv; (split; [exact Hin|]).
  - rewrite <- Zle_Qle, <- Zlt_Qlt. exact H.
  - rewrite <- Zle_Qle, <- Zlt_Qlt in H. exact H.
Qed.

Lemma busy_at_merge_iv (now : Z) (ivs : list TimeInterval) :
  busy_at now (merge_iv ivs) <-> busy_at now ivs.
Proof. rewrite !busy_at_covered. apply merge_iv_covered. Qed.


Section Pipeline.

Variable null_dtype_message : string.
Variable strftime_HM : Z -> string.

Lemma room_status_frame_of (ivs : list TimeInterval) (now : Z) :
  room_status null_dtype_message strftime_HM (frame_of ivs) now
  = check_room_status null_dtype_message strftime_HM (frame_of (merge_iv ivs)) now.
Proof. unfold room_status. now rewrite merge_meetings_frame_of. Qed.

(** X13.  Merging does not change the verdict: for every frame of
    complete intervals the merge followed by the evaluation answers
    [busy] exactly when some interval of the frame itself has
    [start <= now < end], and [free] otherwise. *)
Theorem room_status_busy_iff (ivs : list TimeInterval) (now : Z) :
  exists state detail : string,
    room_status null_dtype_message strftime_HM (frame_of ivs) now = Ok (state, detail) /\
    (state = "busy" \/ state = "free") /\
    (state = "busy" <-> busy_at now ivs).
Proof.
  rewrite room_status_frame_of. pose proof (busy_at_merge_iv now ivs) as Hb.
  destruct (active_dec (frame_of (merge_iv ivs)) now) as [Hact|Hno].
  - destruct (check_room_status_busy null_dtype_message strftime_HM _ now Hact) as (m & _ & ->).
    apply busy_at_active in Hact.
    eexists _, _. split; [reflexivity|]. split; [now left|]. tauto.
  - rewrite (check_room_status_free_frame null_dtype_message strftime_HM _ now Hno).
    rewrite <- busy_at_active in Hno.
    eexists _, _. split; [reflexivity|]. split; [now right|].
    split; [discriminate|tauto].
Qed.


(** X15.  When no interval of the frame contains [now], merging changes
    nothing in the answer: the merge followed by the evaluation says what
    the evaluation says on the frame itself. *)
Theorem room_status_free_unchanged (ivs : list TimeInterval) (now : Z) :
  Forall valid ivs -> ~ busy_at now ivs ->
  room_status null_dtype_message strftime_HM (frame_of ivs) now
  = check_room_status null_dtype_message strftime_HM (frame_of ivs) now.
Proof.
  intros Hv Hfree. rewrite room_status_frame_of.
  assert (Hfree' : ~ busy_at now (merge_iv ivs)) by now rewrite busy_at_merge_iv.
  rewrite busy_at_active in Hfree, Hfree'.
  rewrite (check_room_status_free_frame null_dtype_message strftime_HM _ now Hfree).
  rewrite (check_room_status_free_frame null_dtype_message strftime_HM _ now Hfree').
  rewrite <- busy_at_active in Hfree'.
  destruct (col_min (map start (df_filter (fun r => col_gt (start r) now)
                                  (frame_of ivs)))) as [a|] eqn:E.
  - apply col_min_starts_after in E.
    destruct E as [(r & Hr & Hs & Hlt) Hle].
    apply frame_of_In in Hr. destruct Hr as ([a' b] & Hab & ->).
    simpl in Hs. injection Hs as ->.
    assert (Hout : least_start_after now (frame_of (merge_iv ivs)) a).
    { rewrite List.Forall_forall in Hv. pose proof (Hv _ Hab) as Hvab.
      unfold valid in Hvab. simpl in Hvab.
      assert (Hc : covered true (merge_iv ivs) (inject_Z a)).
      { apply merge_iv_covered. exists (a, b). split; [exact Hab|].
        unfold inside; simpl. rewrite <- !Zle_Qle. lia. }
      destruct Hc as ([s' e'] & Hin' & Hlo & Hhi). simpl in Hlo, Hhi.
      rewrite <- Zle_Qle in Hlo, Hhi.
      assert (Hnow : now < s').
      { destruct (Z_lt_le_dec now s') as [H|H]; [exact H|].
        exfalso. apply Hfree'. exists (s', e'). split; [exact Hin'|]. simpl. lia. }
      destruct (proj1 (merge_iv_endpoints ivs (s', e') Hin')) as (c & Hc & Hcs).
      simpl in Hcs.
      pose proof (Hle (row_of c) s' (in_map row_of _ _ Hc)
                    ltac:(simpl; congruence) Hnow) as Hmin.
      assert (Hsa : s' = a) by lia. rewrite Hsa in Hin'. split.
      - exists (row_of (a, e')).
        split; [exact (in_map row_of _ _ Hin')|]. split; [reflexivity|lia].
      - intros r s Hr Hs Hlt'. apply frame_of_In in Hr.
        destruct Hr as (iv & Hiv & ->). simpl in Hs. injection Hs as <-.
        destruct (proj1 (merge_iv_endpoints ivs iv Hiv)) as (c' & Hc' & Hcs').
        apply (Hle (row_of c') (fst iv) (in_map row_of _ _ Hc')
                 ltac:(simpl; congruence) Hlt'). }
    apply col_min_starts_after in Hout. now rewrite Hout.
  - assert (Hnone : col_min (map start (df_filter (fun r => col_gt (start r) now)
                                          (frame_of (merge_iv ivs)))) = None).
    { apply col_min_none. intros v Hv'. apply starts_after_In in Hv'.
      destruct Hv' as (r & Hr & Hs & Hlt). apply frame_of_In in Hr.
      destruct Hr as (iv & Hiv & ->). simpl in Hs. injection Hs as <-.
      destruct (proj1 (merge_iv_endpoints ivs iv Hiv)) as (c & Hc & Hcs).
      apply (proj1 (col_min_none _) E (fst iv)).
      apply starts_after_In. exists (row_of c).
      split; [exact (in_map row_of _ _ Hc)|]. split; [simpl; congruence|exact Hlt]. }
    now rewrite Hnone.
Qed.

End Pipeline.


Lemma room_status_free_unchanged_witness :
  Forall valid [(hm 9 0, hm 9 30); (hm 11 0, hm 12 0); (hm 11 30, hm 13 0)] /\
  ~ busy_at (hm 10 0) [(hm 9 0, hm 9 30); (hm 11 0, hm 12 0); (hm 11 30, hm 13 0)] /\
  room_status sample_message clock_HM
    (frame_of [(hm 9 0, hm 9 30); (hm 11 0, hm 12 0); (hm 11 30, hm 13 0)]) (hm 10 0)
  = check_room_status sample_message clock_HM
      (frame_of [(hm 9 0, hm 9 30); (hm 11 0, hm 12 0); (hm 11 30, hm 13 0)]) (hm 10 0).
Proof.
  assert (Hv : Forall valid [(hm 9 0, hm 9 30); (hm 11 0, hm 12 0); (hm 11 30, hm 13 0)]).
  { repeat constructor; unfold valid; vm_compute; discriminate. }
  assert (Hf : ~ busy_at (hm 10 0)
                 [(hm 9 0, hm 9 30); (hm 11 0, hm 12 0); (hm 11 30, hm 13 0)]).
  { intros (iv & [<-|[<-|[<-|[]]]] & H1 & H2); vm_compute in H1, H2;
      try discriminate; try (now apply H1). }
  split; [exact Hv|]. split; [exact Hf|].
  exact (room_status_free_unchanged sample_message clock_HM _ (hm 10 0) Hv Hf).
Defined.

(** ** What [merge_meetings] returns can be evaluated *)

Lemma sweep_row_values (st st' : sweep) (r : row) :
  sweep_row st r = Ok st' ->
  (exists s, current_start st = Some s) ->
  (exists s, current_start st' = Some s) /\
  ((exists e, current_end st' = Some e) \/
   (exists r' e, In r' (merged st') /\ end_ r' = Some e)).
Proof.
  unfold sweep_row. intros H (cs & Hcs).
  destruct (start r) as [s|], (current_end st) as [ce|] eqn:Ece;
    simpl in H; try discriminate.
  destruct (s <=? ce).
  - destruct (end_ r) as [e|]; simpl in H; [|discriminate].
    injection H as <-. simpl. split; [eauto|]. left.
    destruct (ce <? e); eauto.
  - injection H as <-. simpl. split; [eauto|]. right.
    exists (Row (current_start st) (Some ce)), ce. split; [|reflexivity].
    unfold flush. rewrite Ece. apply in_or_app. right. now left.
Qed.

Lemma iter_rows_values (rows : list row) :
  forall st st',
    iter_rows rows st = Ok st' -> rows <> [] ->
    (exists s, current_start st = Some s) ->
    (exists s, current_start st' = Some s) /\
    ((exists e, current_end st' = Some e) \/
     (exists r' e, In r' (merged st') /\ end_ r' = Some e)).
Proof.
  induction rows as [|r rows IH]; intros st st' H Hne Hcs; [now destruct Hne|].
  simpl in H. destruct (sweep_row st r) as [st1|e1] eqn:E1; simpl in H;
    [|discriminate].
  destruct (sweep_row_values _ _ _ E1 Hcs) as [Hcs1 Hend1].
  destruct rows as [|r2 rows]; [simpl in H; injection H as <-; auto|].
  apply (IH st1 st' H); [discriminate|exact Hcs1].
Qed.

Lemma merge_meetings_comparable (df out : DataFrame) :
  merge_meetings df = Ok out -> comparable out.
Proof.
  unfold merge_meetings. destruct df as [|r0 df]; [intros [= <-]; now left|].
  change (is_empty (r0 :: df)) with false. cbv iota zeta.
  destruct (sort (r0 :: df)) as [|first rest]; [discriminate|].
  destruct (iter_rows (first :: rest) _) as [st|e] eqn:E; simpl; [|discriminate].
  intros [= <-]. right.
  assert (Hfirst : exists s, start first = Some s).
  { simpl in E. destruct (sweep_row_inv (Sweep [] (start first) (end_ first)) first)
      as [(msg & Hr)|(st1 & s & ce & Hr & Hs & _)]; rewrite Hr in E;
      [discriminate|eauto]. }
  destruct (iter_rows_values _ _ _ E ltac:(discriminate) Hfirst)
    as [(s & Hs) Hend].
  unfold flush. split.
  - exists (Row (current_start st) (current_end st)), s.
    split; [apply in_or_app; right; now left|exact Hs].
  - destruct Hend as [(e & He)|(r' & e & Hr' & He)].
    + exists (Row (current_start st) (current_end st)), e.
      split; [apply in_or_app; right; now left|exact He].
    + exists r', e. split; [apply in_or_app; now left|exact He].
Qed.

(** ** The store after a pass *)

Section Store.

Variable null_dtype_message : string.
Variable strftime_HM : Z -> string.
Variable get_todays_events : string -> result (Z * DataFrame).

Lemma update_room_insert (availability : gmap string string)
    (mac_address : string) (r : room) :
  update_room null_dtype_message strftime_HM get_todays_events availability mac_address r
  = <[mac_address := room_record null_dtype_message strftime_HM get_todays_events r]> availability.
Proof.
  unfold update_room, room_record.
  now destruct (try_room null_dtype_message strftime_HM get_todays_events r).
Qed.

Lemma update_cycle_lookup (rooms : list (string * room)) :
  NoDup rooms.*1 ->
  forall (availability : gmap string string) (key : string),
    update_cycle null_dtype_message strftime_HM get_todays_events rooms availability !! key
    = match (list_to_map rooms : gmap string room) !! key with
      | Some r => Some (room_record null_dtype_message strftime_HM get_todays_events r)
      | None => availability !! key
      end.
Proof.
  induction rooms as [|[mac r] rooms IH]; intros Hnd availability key; simpl.
  - now rewrite lookup_empty.
  - simpl in Hnd. apply NoDup_cons in Hnd. destruct Hnd as [Hfresh Hnd].
    rewrite (IH Hnd), update_room_insert.
    destruct (decide (mac = key)) as [->|Hne].
    + rewrite !lookup_insert_eq.
      now rewrite (not_elem_of_list_to_map_1 _ _ Hfresh).
    + now rewrite !lookup_insert_ne.
Qed.

(** X16.  A pass over the rooms writes, under the key of every room of
    the dictionary, the record of that room, and leaves every other entry
    of the store as it was: no entry is removed, and the record of a room
    depends on that room alone, whatever happens with the others. *)
Theorem update_rooms_lookup (rooms : gmap string room)
    (availability : gmap string string) (key : string) :
  update_rooms null_dtype_message strftime_HM get_todays_events rooms availability !! key
  = match rooms !! key with
    | Some r => Some (room_record null_dtype_message strftime_HM get_todays_events r)
    | None => availability !! key
    end.
Proof.
  unfold update_rooms.
  rewrite (update_cycle_lookup _ (NoDup_fst_map_to_list rooms)).
  now rewrite list_to_map_to_list.
Qed.

Lemma check_room_status_ok (df : DataFrame) (now : Z) :
  comparable df ->
  exists state detail : string,
    check_room_status null_dtype_message strftime_HM df now = Ok (state, detail) /\
    (state = "free" \/ state = "busy").
Proof.
  intros Hc. destruct (active_dec df now) as [Hact|Hno].
  - destruct (check_room_status_busy null_dtype_message strftime_HM df now Hact)
      as (m & _ & ->).
    eauto.
  - rewrite (check_room_status_free null_dtype_message strftime_HM df now Hc Hno).
    eauto.
Qed.

(** X17.  Every record that the loop stores is the name of the room, one
    of the three states [free], [busy] and [error], and a detail, each
    followed by a newline. *)
Theorem room_record_state (r : room) :
  exists state detail : string,
    room_record null_dtype_message strftime_HM get_todays_events r
    = status_string (name r) state detail /\
    (state = "free" \/ state = "busy" \/ state = "error").
Proof.
  unfold room_record, try_room.
  destruct (get_todays_events (ical_url r)) as [[now ical_df]|e]; simpl;
    [|eauto 6].
  destruct (merge_meetings ical_df) as [merged_df|e] eqn:Em; simpl; [|eauto 6].
  destruct (check_room_status_ok merged_df now
              (merge_meetings_comparable _ _ Em)) as (state & detail & -> & Hs).
  simpl. exists state, detail. split; [reflexivity|tauto].
Qed.

(** X18.  The evaluation is never what fails: the [try] suite raises an
    exception exactly when the fetch raises it or the merge of the
    fetched frame raises it, and what the merge raises is a
    [TypeError]. *)
Theorem try_room_raise_causes (r : room) (e : PyException) :
  try_room null_dtype_message strftime_HM get_todays_events r = Raise e
  <-> get_todays_events (ical_url r) = Raise e \/
      exists (now : Z) (ical_df : DataFrame) (msg : string),
        get_todays_events (ical_url r) = Ok (now, ical_df) /\
        merge_meetings ical_df = Raise e /\ e = TypeError msg.
Proof.
  unfold try_room.
  destruct (get_todays_events (ical_url r)) as [[now ical_df]|e0]; simpl.
  - destruct (merge_meetings ical_df) as [merged_df|e1] eqn:Em; simpl.
    + destruct (check_room_status_ok merged_df now
                  (merge_meetings_comparable _ _ Em)) as (state & detail & -> & _).
      simpl. split; [discriminate|].
      intros [H|(n & d & msg & H0 & H1 & _)]; simplify_eq; congruence.
    + split.
      * intros H. simplify_eq. right.
        destruct (merge_meetings_raise_inv ical_df e Em) as (msg & ->).
        exists now, ical_df, msg. auto.
      * intros [H|(n & d & msg & H0 & H1 & _)]; simplify_eq; congruence.
  - split.
    + intros H. simplify_eq. now left.
    + intros [H|(n & d & msg & H0 & _)]; simplify_eq; congruence.
Qed.

End Store.

Section StoreEndToEnd.

Variable null_dtype_message : string.
Variable strftime_HM : Z -> string.
Variable get_todays_events : string -> result (Z * DataFrame).

(** X19.  When the fetch answers with a frame of complete intervals, the
    record of the room is never an error record: its state is [busy]
    when some fetched interval has [start <= now < end] for the fetched
    instant [now], and [free] when none has. *)
Theorem room_record_complete (r : room) (now : Z) (ivs : list TimeInterval) :
  get_todays_events (ical_url r) = Ok (now, frame_of ivs) ->
  exists state detail : string,
    room_record null_dtype_message strftime_HM get_todays_events r
    = status_string (name r) state detail /\
    (state = "busy" \/ state = "free") /\
    (state = "busy" <-> busy_at now ivs).
Proof.
  intros Hfetch. unfold room_record, try_room. rewrite Hfetch. simpl.
  rewrite merge_meetings_frame_of. simpl.
  pose proof (busy_at_merge_iv now ivs) as Hb.
  destruct (active_dec (frame_of (merge_iv ivs)) now) as [Hact|Hno].
  - destruct (check_room_status_busy null_dtype_message strftime_HM _ now Hact) as (m & _ & ->).
    apply busy_at_active in Hact. simpl.
    eexists _, _. split; [reflexivity|]. split; [now left|]. tauto.
  - rewrite (check_room_status_free_frame null_dtype_message strftime_HM _ now Hno).
    rewrite <- busy_at_active in Hno. simpl.
    eexists _, _. split; [reflexivity|]. split; [now right|].
    split; [discriminate|tauto].
Qed.

(** X20.  What the loop stores for a room is what a lookup returns: after
    the room is refreshed under its key, [get_room] answers with the
    record of the room for every identifier whose uppercased form is that
    key. *)
Theorem get_room_after_update (availability : gmap string string)
    (mac_address identifier : string) (r : room) :
  upper identifier = mac_address ->
  get_room
    (update_room null_dtype_message strftime_HM get_todays_events availability mac_address r)
    identifier
  = room_record null_dtype_message strftime_HM get_todays_events r.
Proof.
  intros <-. unfold get_room. rewrite update_room_insert.
  now rewrite lookup_insert_eq.
Qed.

End StoreEndToEnd.

Lemma room_record_complete_witness :
  let fetch := fun _ : string => Ok (hm 9 15, frame_of [(hm 9 0, hm 10 0)]) in
  exists state detail : string,
    room_record sample_message clock_HM fetch (Room "Tulip" "https://example.org/tulip.ics")
    = status_string "Tulip" state detail /\
    (state = "busy" \/ state = "free") /\
    (state = "busy" <-> busy_at (hm 9 15) [(hm 9 0, hm 10 0)]).
Proof.
  intros fetch.
  apply (room_record_complete sample_message clock_HM fetch
           (Room "Tulip" "https://example.org/tulip.ics") (hm 9 15)
           [(hm 9 0, hm 10 0)]).
  reflexivity.
Defined.

Lemma get_room_after_update_witness :
  let fetch := fun _ : string => Ok (hm 9 15, frame_of [(hm 9 0, hm 10 0)]) in
  upper "aa:bb:cc:dd:ee:ff" = "AA:BB:CC:DD:EE:FF"%string /\
  get_room
    (update_room sample_message clock_HM fetch ∅ "AA:BB:CC:DD:EE:FF"
       (Room "Tulip" "https://example.org/tulip.ics"))
    "aa:bb:cc:dd:ee:ff"
  = room_record sample_message clock_HM fetch (Room "Tulip" "https://example.org/tulip.ics").
Proof.
  intros fetch. split; [reflexivity|].
  apply (get_room_after_update sample_message clock_HM fetch ∅ "AA:BB:CC:DD:EE:FF"
           "aa:bb:cc:dd:ee:ff" (Room "Tulip" "https://example.org/tulip.ics")).
  reflexivity.
Defined.

(** X21.  An entry stored under a key that is not in uppercase form is
    never returned: [get_room] answers the same with and without it. *)
Theorem get_room_ignores_key (availability : gmap string string)
    (key value identifier : string) :
  upper key <> key ->
  get_room (<[key := value]> availability) identifier
  = get_room availability identifier.
Proof.
  intros Hkey. unfold get_room. rewrite lookup_insert_ne; [reflexivity|].
  intros ->. apply Hkey. apply upper_idempotent.
Qed.

Lemma get_room_ignores_key_witness :
  upper "aa:bb" <> "aa:bb"%string /\
  get_room (<["aa:bb"%string := "Tulip"%string]> ∅) "aa:bb" = get_room ∅ "aa:bb".
Proof.
  assert (H : upper "aa:bb" <> "aa:bb"%string) by discriminate.
  split; [exact H|].
  exact (get_room_ignores_key ∅ "aa:bb" "Tulip" "aa:bb" H).
Defined.

(** ** The configuration *)

Lemma load_fold_lookup (config : list (string * room)) :
  forall (acc : gmap string room) (key : string) (r : room),
    fold_left (fun rooms '(mac_address, r) => <[upper mac_address := r]> rooms)
      config acc !! key = Some r ->
    acc !! key = Some r \/
    exists mac_address, In (mac_address, r) config /\ upper mac_address = key.
Proof.
  induction config as [|[mac r0] config IH]; intros acc key r H; simpl in H.
  - now left.
  - destruct (IH _ _ _ H) as [Hacc|(mac' & Hin & Hk)].
    + destruct (decide (upper mac = key)) as [Heq|Hne].
      * rewrite Heq, lookup_insert_eq in Hacc. injection Hacc as ->.
        right. exists mac. split; [now left|assumption].
      * rewrite lookup_insert_ne in Hacc by assumption. now left.
    + right. exists mac'. split; [now right|assumption].
Qed.

Lemma load_fold_keep (config : list (string * room)) :
  forall (acc : gmap string room) (key : string),
    Forall (fun entry => upper (fst entry) <> key) config ->
    fold_left (fun rooms '(mac_address, r) => <[upper mac_address := r]> rooms)
      config acc !! key = acc !! key.
Proof.
  induction config as [|[mac r0] config IH]; intros acc key Hall; simpl;
    [reflexivity|].
  inversion Hall as [|? ? Hne Hall']; subst. simpl in Hne.
  rewrite (IH _ _ Hall'). now rewrite lookup_insert_ne.
Qed.

Lemma load_fold_some (config : list (string * room)) :
  forall (acc : gmap string room) (key : string),
    is_Some (acc !! key) ->
    is_Some (fold_left
               (fun rooms '(mac_address, r) => <[upper mac_address := r]> rooms)
               config acc !! key).
Proof.
  induction config as [|[mac r0] config IH]; intros acc key Hk; simpl;
    [exact Hk|].
  apply IH. destruct (decide (upper mac = key)) as [->|Hne].
  - rewrite lookup_insert_eq. eauto.
  - now rewrite lookup_insert_ne.
Qed.

(** X22.  The dictionary of the rooms has uppercase keys only, and every
    room in it is a room of the configuration, under its uppercased
    [mac_address]. *)
Theorem load_rooms_keys (config : list (string * room)) (key : string) (r : room) :
  load_rooms config !! key = Some r ->
  upper key = key /\
  exists mac_address, In (mac_address, r) config /\ upper mac_address = key.
Proof.
  intros H. unfold load_rooms in H.
  destruct (load_fold_lookup config ∅ key r H) as [Hempty|(mac & Hin & Hk)].
  - rewrite lookup_empty in Hempty. discriminate.
  - split; [|eauto]. rewrite <- Hk. apply upper_idempotent.
Qed.

Lemma load_rooms_keys_witness :
  load_rooms [("aa:bb"%string, Room "Tulip" "u1")] !! "AA:BB"%string
  = Some (Room "Tulip" "u1") /\
  upper "AA:BB" = "AA:BB"%string /\
  exists mac_address,
    In (mac_address, Room "Tulip" "u1") [("aa:bb"%string, Room "Tulip" "u1")] /\
    upper mac_address = "AA:BB"%string.
Proof.
  assert (H : load_rooms [("aa:bb"%string, Room "Tulip" "u1")] !! "AA:BB"%string
              = Some (Room "Tulip" "u1")).
  { unfold load_rooms. simpl. apply lookup_insert_eq. }
  split; [exact H|].
  exact (load_rooms_keys [("aa:bb"%string, Room "Tulip" "u1")] "AA:BB"
           (Room "Tulip" "u1") H).
Defined.

(** X23.  When the configuration names a room more than once, in any
    letter case, the last entry is the one kept: an entry after which no
    entry has the same uppercased [mac_address] is the room of that
    key. *)
Theorem load_rooms_last_wins (before after : list (string * room))
    (mac_address : string) (r : room) :
  Forall (fun entry => upper (fst entry) <> upper mac_address) after ->
  load_rooms (before ++ (mac_address, r) :: after) !! upper mac_address = Some r.
Proof.
  intros Hafter. unfold load_rooms. rewrite fold_left_app. simpl.
  rewrite (load_fold_keep after _ _ Hafter). apply lookup_insert_eq.
Qed.

Lemma load_rooms_last_wins_witness :
  Forall (fun entry => upper (fst entry) <> upper "aa:bb")
    [("cc:dd"%string, Room "Rose" "u3")] /\
  load_rooms ([("AA:BB"%string, Room "Old" "u1")]
              ++ ("aa:bb"%string, Room "Tulip" "u2")
              :: [("cc:dd"%string, Room "Rose" "u3")])
    !! upper "aa:bb"
  = Some (Room "Tulip" "u2").
Proof.
  assert (H : Forall (fun entry => upper (fst entry) <> upper "aa:bb")
                [("cc:dd"%string, Room "Rose" "u3")]).
  { repeat constructor. discriminate. }
  split; [exact H|].
  exact (load_rooms_last_wins [("AA:BB"%string, Room "Old" "u1")]
           [("cc:dd"%string, Room "Rose" "u3")] "aa:bb" (Room "Tulip" "u2") H).
Defined.

Lemma load_rooms_configured (config : list (string * room))
    (mac_address : string) (r : room) :
  In (mac_address, r) config -> is_Some (load_rooms config !! upper mac_address).
Proof.
  intros Hin. apply in_split in Hin. destruct Hin as (before & after & ->).
  unfold load_rooms. rewrite fold_left_app. simpl.
  apply load_fold_some. rewrite lookup_insert_eq. eauto.
Qed.

Section Service.

Variable null_dtype_message : string.
Variable strftime_HM : Z -> string.
Variable get_todays_events : string -> result (Z * DataFrame).

(** X24.  From the configuration to the answer: after one pass over the
    rooms loaded from the configuration, whatever the store held, a
    lookup by the [mac_address] of a configured room, in any letter case,
    returns the record of the room kept under that key, whether its
    calendar could be read or not. *)
Theorem configured_room_lookup (config : list (string * room))
    (availability : gmap string string)
    (mac_address identifier : string) (r : room) :
  In (mac_address, r) config ->
  upper identifier = upper mac_address ->
  exists kept : room,
    load_rooms config !! upper mac_address = Some kept /\
    get_room
      (update_rooms null_dtype_message strftime_HM get_todays_events (load_rooms config) availability)
      identifier
    = room_record null_dtype_message strftime_HM get_todays_events kept.
Proof.
  intros Hin Hid.
  destruct (load_rooms_configured config mac_address r Hin) as (kept & Hkept).
  exists kept. split; [exact Hkept|].
  unfold get_room. rewrite Hid.
  unfold update_rooms.
  rewrite (update_cycle_lookup null_dtype_message strftime_HM get_todays_events _
             (NoDup_fst_map_to_list (load_rooms config))).
  rewrite list_to_map_to_list. now rewrite Hkept.
Qed.

End Service.

Lemma configured_room_lookup_witness :
  let fetch := fun _ : string => Ok (hm 9 15, frame_of [(hm 9 0, hm 10 0)]) in
  let config := [("aa:bb:cc:dd:ee:ff"%string, Room "Tulip" "https://example.org/t.ics")] in
  In ("aa:bb:cc:dd:ee:ff"%string, Room "Tulip" "https://example.org/t.ics") config /\
  upper "Aa:Bb:Cc:Dd:Ee:Ff" = upper "aa:bb:cc:dd:ee:ff" /\
  exists kept : room,
    load_rooms config !! upper "aa:bb:cc:dd:ee:ff" = Some kept /\
    get_room (update_rooms sample_message clock_HM fetch (load_rooms config) ∅) "Aa:Bb:Cc:Dd:Ee:Ff"
    = room_record sample_message clock_HM fetch kept.
Proof.
  intros fetch config.
  assert (H1 : In ("aa:bb:cc:dd:ee:ff"%string,
                   Room "Tulip" "https://example.org/t.ics") config) by now left.
  assert (H2 : upper "Aa:Bb:Cc:Dd:Ee:Ff" = upper "aa:bb:cc:dd:ee:ff") by reflexivity.
  split; [exact H1|]. split; [exact H2|].
  exact (configured_room_lookup sample_message clock_HM fetch config ∅ _ _ _ H1 H2).
Defined.

(** ** The detail of an error record *)

Lemma substring_prefix (n : nat) (s : string) :
  exists rest : string, s = substring 0 n s +:+ rest.
Proof.
  revert s. induction n as [|n IH]; intros [|c s]; simpl.
  - now exists EmptyString.
  - now exists (String c s).
  - now exists EmptyString.
  - destruct (IH s) as (rest & Hrest). exists rest.
    change (String c s = String c (substring 0 n s +:+ rest)).
    f_equal. exact Hrest.
Qed.

Lemma substring_length_min (n : nat) (s : string) :
  String.length (substring 0 n s) = Nat.min n (String.length s).
Proof.
  revert s. induction n as [|n IH]; intros [|c s]; simpl; try reflexivity.
  now rewrite IH.
Qed.

Lemma substring_whole (n : nat) (s : string) :
  (String.length s <= n)%nat -> substring 0 n s = s.
Proof.
  revert s. induction n as [|n IH]; intros [|c s] H; simpl in *;
    try reflexivity; try lia.
  f_equal. apply IH. lia.
Qed.

Section ErrorDetail.

Variable null_dtype_message : string.
Variable strftime_HM : Z -> string.
Variable get_todays_events : string -> result (Z * DataFrame).

(** X25.  The detail of an error record is the beginning of the message
    of the exception: a message of at most 30 characters is stored
    whole, a longer one is cut to its first 30 characters. *)
Theorem error_detail_cut (r : room) (e : PyException) :
  try_room null_dtype_message strftime_HM get_todays_events r = Raise e ->
  exists detail : string,
    room_record null_dtype_message strftime_HM get_todays_events r
    = status_string (name r) "error" detail /\
    (exists rest : string, str e = detail +:+ rest) /\
    String.length detail = Nat.min 30 (String.length (str e)) /\
    ((String.length (str e) <= 30)%nat -> detail = str e).
Proof.
  intros H. exists (substring 0 30 (str e)).
  unfold room_record. rewrite H.
  split; [reflexivity|]. split; [apply substring_prefix|].
  split; [apply substring_length_min|].
  apply substring_whole.
Qed.

End ErrorDetail.

Lemma error_detail_cut_witness :
  let fetch := fun _ : string => @Raise (Z * DataFrame) (Raised "timed out") in
  try_room sample_message clock_HM fetch (Room "Tulip" "https://example.org/tulip.ics")
  = Raise (Raised "timed out") /\
  exists detail : string,
    room_record sample_message clock_HM fetch (Room "Tulip" "https://example.org/tulip.ics")
    = status_string "Tulip" "error" detail /\
    (exists rest : string, "timed out"%string = detail +:+ rest) /\
    String.length detail = Nat.min 30 (String.length "timed out") /\
    ((String.length "timed out" <= 30)%nat -> detail = "timed out"%string).
Proof.
  intros fetch. split; [reflexivity|].
  apply (error_detail_cut sample_message clock_HM fetch
           (Room "Tulip" "https://example.org/tulip.ics") (Raised "timed out")).
  reflexivity.
Defined.
